(** * DrawByCircles: the rotor chain of [main.py]

    A shallow embedding of the kinematic core of [src/main.py]
    ([Coord], [Radius], [Circle], [CirclesCollection]) and the properties
    of it that the specification states.

    Numbers.  The Python fields are annotated [float] and hold either
    [int]s or [float]s.  Every such value is a rational, so a number is
    modelled as a [Q] and the arithmetic ([+], [-], [*], [/], [**], [%],
    the comparisons) as the exact operation on [Q]:  this is what Python
    computes on [int]s, and on [float]s whenever no operation rounds,
    overflows or yields a NaN.  The rounding of IEEE doubles is not
    modelled.  Python's [==] on numbers is [Qeq] (notation [==]).

    [math.sin], [math.cos] and [math.pi] are library code outside the
    repository: they are parameters of the development
    ([Section Kinematics]).

    Drawing.  A pygame surface is kept as the finite map of the pixels
    written since it was last filled with the transparent color; the
    events of a round are the list [pygame.event.get()] returns.  The
    display surface of the window (blit, flip) is pygame's and not
    modelled.

    Objects.  A [Circle] is a record and a method that mutates [self]
    returns the new record.  The list [circles] holds pairwise distinct
    objects, each with the [Coord] its constructor allocated, which is
    what evaluating the configuration's [Circle(...)] expressions gives. *)

From Stdlib Require Import ZArith QArith Qround Qabs Lia Lqa Bool Sorted.
From stdpp Require Import base list gmap.

Local Open Scope Q_scope.

(** ** Python numbers *)

(** [int(q)] for a float [q]: the integer part, truncated toward zero. *)
Definition py_int (q : Q) : Z := Z.quot (Qnum q) (Zpos (Qden q)).

(** [a % b]: the remainder of the floored division, with the sign of
    [b].  (Python raises ZeroDivisionError for [b = 0]; the program's
    only divisor is the literal [360].) *)
Definition py_mod (a b : Q) : Q := a - b * inject_Z (Qfloor (a / b)).

(** [a >= b], [a <= b], [a > b] as Python evaluates them. *)
Definition py_ge (a b : Q) : bool := Qle_bool b a.
Definition py_le (a b : Q) : bool := Qle_bool a b.
Definition py_gt (a b : Q) : bool := negb (Qle_bool a b).

(** ** Exceptions *)

Inductive exn : Set := IndexError.

Inductive Result (A : Type) : Type :=
| Ok (a : A)
| Raise (e : exn).
Arguments Ok {A} a.
Arguments Raise {A} e.

Definition bind {A B} (m : Result A) (k : A -> Result B) : Result B :=
  match m with
  | Ok a => k a
  | Raise e => Raise e
  end.

Notation "'let!' v ':=' m 'in' k" := (bind m (fun v => k))
  (at level 10, v name, m at level 100, k at level 200).

(** [l[i]] and [l[i] = v] for [0 <= i]: IndexError out of range. *)
Definition getitem {A} (l : list A) (i : nat) : Result A :=
  match l !! i with
  | Some a => Ok a
  | None => Raise IndexError
  end.

Definition setitem {A} (l : list A) (i : nat) (v : A) : Result (list A) :=
  if decide (i < length l)%nat then Ok (<[i := v]> l) else Raise IndexError.

(** [range(a, b)] and a [for] loop whose body updates the state [s]. *)
Definition range (a b : nat) : list nat := seq a (b - a).

Fixpoint for_each {S} (l : list nat) (body : nat -> S -> Result S) (s : S)
  : Result S :=
  match l with
  | [] => Ok s
  | i :: l' => let! s' := body i s in for_each l' body s'
  end.

(** ** Data model *)

Record Coord : Set := mkCoord { x : Q; y : Q }.

(** [Coord.__eq__] *)
Definition Coord_eq (self other : Coord) : bool :=
  Qeq_bool (x self) (x other) && Qeq_bool (y self) (y other).

Definition clone (self : Coord) : Coord := mkCoord (x self) (y self).

Record Radius : Set := mkRadius { value : Q; thickness : Q }.

(** [Radius(v)]: the dataclass default [thickness = 1]. *)
Definition Radius1 (v : Q) : Radius := mkRadius v 1.

Record Circle : Set := mkCircle {
  is_draw_circles : bool;
  center : Coord;
  angle : Q;
  angle_velocity : Q;
  r : Radius;
  inner_pixels : list Coord;
  pixels : list Coord
}.

Definition with_center (c : Circle) (p : Coord) : Circle :=
  mkCircle (is_draw_circles c) p (angle c) (angle_velocity c) (r c)
           (inner_pixels c) (pixels c).
Definition with_angle (c : Circle) (a : Q) : Circle :=
  mkCircle (is_draw_circles c) (center c) a (angle_velocity c) (r c)
           (inner_pixels c) (pixels c).
Definition with_angle_velocity (c : Circle) (v : Q) : Circle :=
  mkCircle (is_draw_circles c) (center c) (angle c) v (r c)
           (inner_pixels c) (pixels c).
Definition with_inner_pixels (c : Circle) (l : list Coord) : Circle :=
  mkCircle (is_draw_circles c) (center c) (angle c) (angle_velocity c) (r c)
           l (pixels c).
Definition with_pixels (c : Circle) (l : list Coord) : Circle :=
  mkCircle (is_draw_circles c) (center c) (angle c) (angle_velocity c) (r c)
           (inner_pixels c) l.

(** ** [Circle.calc_pixels] *)

Section CalcPixels.
Variable self : Circle.
Variables r_inner r_outer : Q.

Definition larger_inner (p : Coord) : bool :=
  py_gt ((x p - x (center self)) ^ 2 + (y p - y (center self)) ^ 2)
        (r_inner ^ 2).

Definition smaller_outer (p : Coord) : bool :=
  py_le ((x p - x (center self)) ^ 2 + (y p - y (center self)) ^ 2)
        (r_outer ^ 2).

(** The inner [while x <= x_end] loop; [None] when the fuel runs out
    before the loop condition fails. *)
Fixpoint while_x (fuel : nat) (yv xv x_end : Q) (acc : list Coord)
  : option (list Coord) :=
  match fuel with
  | O => None
  | S fuel' =>
      if py_le xv x_end then
        let c := mkCoord xv yv in
        let acc := if larger_inner c && smaller_outer c
                   then acc ++ [c] else acc in
        while_x fuel' yv (xv + 1) x_end acc
      else Some acc
  end.

(** The outer [while y <= y_end] loop; every run of the inner loop
    gets [fuel_x]. *)
Fixpoint while_y (fuel_x fuel : nat) (yv y_end : Q) (acc : list Coord)
  : option (list Coord) :=
  match fuel with
  | O => None
  | S fuel' =>
      if py_le yv y_end then
        let xv := x (center self) - r_outer in
        let x_end := x (center self) + r_outer in
        match while_x fuel_x yv xv x_end acc with
        | Some acc => while_y fuel_x fuel' (yv + 1) y_end acc
        | None => None
        end
      else Some acc
  end.
End CalcPixels.

(** Iterations of either loop are at most [floor (2 * r_outer) + 1]; one
    more unit of fuel pays for the failing test that ends the loop. *)
Definition calc_pixels_fuel (r_outer : Q) : nat :=
  S (Z.to_nat (Qfloor (2 * r_outer) + 1)).

Definition calc_pixels_run (fuel : nat) (self : Circle)
  : option (list Coord) :=
  let r_inner := value (r self) in
  let r_outer := value (r self) + thickness (r self) in
  let yv := y (center self) - r_outer in
  let y_end := y (center self) + r_outer in
  while_y self r_inner r_outer fuel fuel yv y_end [].

(** [calc_pixels]: the loops run with fuel that is enough for them to
    end ([calc_pixels_run_enough] below), so the default is never used. *)
Definition calc_pixels (self : Circle) : list Coord :=
  default [] (calc_pixels_run
                (calc_pixels_fuel (value (r self) + thickness (r self))) self).

(** ** [Circle.__init__] and the methods of [Circle] *)

Definition Circle_init (is_draw : bool) (a : Q) (rad : Radius) (v : Q)
  : Circle :=
  let self := mkCircle is_draw (mkCoord 0 0) a v rad [] [] in
  let self := with_inner_pixels self
                (if is_draw then calc_pixels self else []) in
  with_pixels self (inner_pixels self).

(** The call [Circle(is_draw, a, rad, v)]: [__init__] has no [raise] and
    no check of its arguments, the call always yields the object. *)
Definition Circle_new (is_draw : bool) (a : Q) (rad : Radius) (v : Q)
  : Result Circle :=
  Ok (Circle_init is_draw a rad v).

Definition set_center (self : Circle) (c : Coord) : Circle :=
  with_center self c.

Definition add_angle_velocity (self other_circle : Circle) : Circle :=
  with_angle_velocity self
    (angle_velocity self + angle_velocity other_circle).

Definition get_pixels (self : Circle) : list Coord := pixels self.

Definition update_angle (self : Circle) : Circle :=
  with_angle self
    (py_mod ((if py_ge (angle self) 0 then 1 else -1)
             * (angle self + angle_velocity self)) 360).

(** ** [Circle.recalc_center], [CirclesCollection] *)

Record CirclesCollection : Type := mkCirclesCollection {
  circles : list Circle;
  line_points : list Coord;
  cur_point_index : Z;
  first_circle_center : Coord;
  scene_width : Z;
  scene_height : Z;
  brush_line_size : Z;
  circles_color : Z * Z * Z;
  line_color : Z * Z * Z;
  draw_circles : bool     (* the collection's own [is_draw_circles] *)
}.

Definition with_circles (cc : CirclesCollection) (l : list Circle)
  : CirclesCollection :=
  mkCirclesCollection l (line_points cc) (cur_point_index cc)
    (first_circle_center cc) (scene_width cc) (scene_height cc)
    (brush_line_size cc) (circles_color cc) (line_color cc) (draw_circles cc).

Section Kinematics.
(** [from math import sin, cos, pi] *)
Variables (cos sin : Q -> Q) (pi : Q).

(** One round of the loop over [range(len(self.inner_pixels))]. *)
Definition move_pixel (i : nat) (self : Circle) : Result Circle :=
  let! p := getitem (inner_pixels self) i in
  let new_pixel := clone p in
  let new_pixel := mkCoord (x new_pixel + x (center self)) (y new_pixel) in
  let new_pixel := mkCoord (x new_pixel) (y new_pixel + y (center self)) in
  let! l := setitem (pixels self) i new_pixel in
  Ok (with_pixels self l).

Definition recalc_center (self prev_circle : Circle) : Result Circle :=
  let avg_r := 2 * value (r prev_circle) + thickness (r prev_circle) in
  let avg_r := avg_r / 2 in
  let self := with_center self
    (mkCoord (inject_Z (py_int (x (center prev_circle)
                                + avg_r * cos (angle self / 180 * pi))))
             (y (center self))) in
  let self := with_center self
    (mkCoord (x (center self))
             (inject_Z (py_int (y (center prev_circle)
                                + avg_r * sin (angle self / 180 * pi))))) in
  if is_draw_circles self then
    for_each (range 0 (length (inner_pixels self))) move_pixel self
  else Ok self.

(** [self.circles[i].recalc_center(self.circles[i - 1])]: the object at
    index [i] is mutated in place, which the model writes back into slot
    [i] (in range, [getitem] got it from there). *)
Definition recalc_at (i : nat) (cs : list Circle) : Result (list Circle) :=
  let! ci := getitem cs i in
  let! cp := getitem cs (i - 1) in
  let! ci' := recalc_center ci cp in
  Ok (<[i := ci']> cs).

(** [circles[i].add_angle_velocity(circles[i - 1])] *)
Definition add_velocity_at (i : nat) (cs : list Circle)
  : Result (list Circle) :=
  let! ci := getitem cs i in
  let! cp := getitem cs (i - 1) in
  Ok (<[i := add_angle_velocity ci cp]> cs).

(** [CirclesCollection.__init__] *)
Definition CirclesCollection_init
    (circles0 : list Circle) (first_center : Coord)
    (width height brush : Z) (ccolor lcolor : Z * Z * Z) (is_draw : bool)
  : Result CirclesCollection :=
  let self := mkCirclesCollection circles0
                [mkCoord (-10000) (-10000); mkCoord (-10000) (-10000)]
                0%Z first_center width height brush ccolor lcolor is_draw in
  let temp_circle := Circle_init is_draw 0 (Radius1 1) 1 in
  let temp_circle := set_center temp_circle first_center in
  let! c0 := getitem circles0 0 in
  let! c0' := recalc_center c0 temp_circle in
  let cs := <[0%nat := c0']> circles0 in
  let! cs := for_each (range 1 (length cs)) add_velocity_at cs in
  Ok (with_circles self cs).

(** One simulation step: the two [for] loops at the head of the body of
    the [while] loop of [CirclesCollection.run]. *)
Definition tick (self : CirclesCollection) : Result CirclesCollection :=
  let! cs := for_each (range 1 (length (circles self))) recalc_at
               (circles self) in
  Ok (with_circles self (map update_angle cs)).

Fixpoint ticks (n : nat) (self : CirclesCollection)
  : Result CirclesCollection :=
  match n with
  | O => Ok self
  | S n' => let! self' := tick self in ticks n' self'
  end.
End Kinematics.

(** ** Notions of the specification and closed forms of the loops *)

(** "[angle] mod 360 with its sign preserved": the magnitude is reduced
    and the sign of [a] put back. *)
Definition signed_mod (a m : Q) : Q :=
  (if py_ge a 0 then 1 else -1) * py_mod (Qabs a) m.

(** A rotor at angle -30 that does not turn. *)
Definition rotor_minus30 : Circle := Circle_init false (-30) (Radius1 1) 0.

(** [pixels] has a slot for every point of [inner_pixels]: what
    [__init__] establishes by [self.pixels = self.inner_pixels[:]] and
    every method keeps. *)
Definition pixels_aligned (c : Circle) : Prop :=
  length (pixels c) = length (inner_pixels c).

(** A mask point moved to the rotor's center. *)
Definition translate (ctr p : Coord) : Coord :=
  mkCoord (x p + x ctr) (y p + y ctr).

(** The midline radius of a ring. *)
Definition midline (rad : Radius) : Q := value rad + thickness rad / 2.


(** A loop [for i in range(1, len(cs))] that replaces [cs[i]] by
    [g cs[i] cs[i-1]], unrolled along the list. *)
Fixpoint pass (g : Circle -> Circle -> Circle) (prev : Circle)
    (l : list Circle) : list Circle :=
  match l with
  | [] => []
  | c :: l' => g c prev :: pass g (g c prev) l'
  end.

Section KinematicsSpec.
Variables (cos sin : Q -> Q) (pi : Q).

(** Degrees to radians, as the program converts them. *)
Definition radians (deg : Q) : Q := deg / 180 * pi.

(** The point at [deg] degrees on the midline of a ring around
    [parent_center], snapped to integers by [int]. *)
Definition orbit_point (parent_center : Coord) (rad : Radius) (deg : Q)
  : Coord :=
  mkCoord
    (inject_Z (py_int (x parent_center + midline rad * cos (radians deg))))
    (inject_Z (py_int (y parent_center + midline rad * sin (radians deg)))).

(** The center [recalc_center] computes. *)
Definition new_center (self prev_circle : Circle) : Coord :=
  let avg_r := (2 * value (r prev_circle) + thickness (r prev_circle)) / 2 in
  mkCoord
    (inject_Z (py_int (x (center prev_circle)
                       + avg_r * cos (angle self / 180 * pi))))
    (inject_Z (py_int (y (center prev_circle)
                       + avg_r * sin (angle self / 180 * pi)))).

(** The rotor [recalc_center] leaves behind. *)
Definition moved (self prev_circle : Circle) : Circle :=
  let c := new_center self prev_circle in
  mkCircle (is_draw_circles self) c (angle self) (angle_velocity self)
    (r self) (inner_pixels self)
    (if is_draw_circles self
     then map (translate c) (inner_pixels self) else pixels self).
End KinematicsSpec.

(** The temporary circle of [CirclesCollection.__init__], centered on the
    anchor. *)
Definition temp_circle (is_draw : bool) (first_center : Coord) : Circle :=
  set_center (Circle_init is_draw 0 (Radius1 1) 1) first_center.

(** ** Sample data *)

(** The chain of the specification's end-to-end scenario. *)
Definition anchor : Coord := mkCoord 100 100.
Definition rotor0 (idc : bool) : Circle := Circle_init idc 0 (mkRadius 10 2) 0.
Definition rotor1 (idc : bool) : Circle := Circle_init idc 0 (mkRadius 5 1) 10.

Definition sample_chain : CirclesCollection :=
  mkCirclesCollection [rotor0 true; rotor1 true]
    [mkCoord (-10000) (-10000); mkCoord (-10000) (-10000)]
    0%Z anchor 800 600 5 (255, 255, 255)%Z (155, 10, 20)%Z true.

(** Rational stand-ins for [math.cos], [math.sin] and [math.pi], to run
    the model on data: Taylor polynomials and the double next to pi. *)
Definition cos_poly (q : Q) : Q := 1 - q * q / 2 + q * q * q * q / 24.
Definition sin_poly (q : Q) : Q := q - q * q * q / 6.
Definition pi_double : Q := 884279719003555 # 281474976710656.

(** ** The ring mask *)

(** [p in l] as Python decides it, through [Coord.__eq__]. *)
Definition in_mask (p : Coord) (l : list Coord) : Prop :=
  existsb (Coord_eq p) l = true.

Definition outer_radius (rad : Radius) : Q := value rad + thickness rad.

(** The band of the ring around the origin: inner boundary excluded,
    outer boundary included. *)
Definition in_band (rad : Radius) (p : Coord) : Prop :=
  value rad ^ 2 < x p ^ 2 + y p ^ 2 /\
  x p ^ 2 + y p ^ 2 <= outer_radius rad ^ 2.


(** The points the two loops visit: whole steps away from the corner
    [(-outer, -outer)] of the bounding square, inside the square; those
    in the band are kept. *)
Definition grid_ring_point (rad : Radius) (p : Coord) : Prop :=
  exists i j : Z,
    (0 <= i)%Z /\ (0 <= j)%Z /\
    x p == - outer_radius rad + inject_Z i /\
    y p == - outer_radius rad + inject_Z j /\
    x p <= outer_radius rad /\ y p <= outer_radius rad /\
    in_band rad p.

(** The values a loop variable takes in [n] rounds of [v += 1]. *)
Fixpoint steps (n : nat) (v : Q) : list Q :=
  match n with
  | O => []
  | S n' => v :: steps n' (v + 1)
  end.

(** The test of the [if] in the inner loop of [calc_pixels]. *)
Definition keep (self : Circle) (r_inner r_outer : Q) (c : Coord) : bool :=
  larger_inner self r_inner c && smaller_outer self r_outer c.

(** The points a run of the inner loop appends for the row [yv]. *)
Definition row (self : Circle) (r_inner r_outer : Q) (n : nat) (xv yv : Q)
  : list Coord :=
  List.filter (keep self r_inner r_outer)
    (map (fun xx => mkCoord xx yv) (steps n xv)).

(** [n] rounds of a loop [while v <= v_end: ...; v += 1] remain: the
    loop variable passes [v_end] after exactly [n] increments. *)
Definition rounds_left (n : nat) (v v_end : Q) : Prop :=
  v_end < v + inject_Z (Z.of_nat n) /\
  (n = 0%nat \/ v + inject_Z (Z.of_nat n) - 1 <= v_end).

(** The number of rounds of either loop for the outer radius [ro]. *)
Definition rounds (ro : Q) : nat := Z.to_nat (Qfloor (2 * ro) + 1).

(** A ring of thickness 3/2 around a point, and one with negative
    radius and thickness. *)
Definition ring_three_halves : Radius := mkRadius 0 (3 # 2).
Definition ring_negative : Radius := mkRadius (-5) (-1).

(** ** Further sample data *)




(** The order in which [calc_pixels] scans: rows by growing [y], a row
    by growing [x]. *)
Definition row_major_lt (p q : Coord) : Prop :=
  y p < y q \/ (y p == y q /\ x p < x q).

(** ** [DrawableSurface] *)

(** An RGB color as the program passes it to [draw_pixel]. *)
Definition color : Type := (Z * Z * Z)%type.

(** The pygame surface is kept as the pixels written since it was last
    filled with the transparent [(0, 0, 0, 0)], by [(col, row)]. *)
Record DrawableSurface : Type := mkDrawableSurface {
  surface : gmap (Z * Z) color;
  width : Z;
  height : Z
}.

Definition DrawableSurface_init (w h : Z) : DrawableSurface :=
  mkDrawableSurface ∅ w h.

(** [self.surface.fill((0, 0, 0, 0))] *)
Definition fill_transparent (self : DrawableSurface) : DrawableSurface :=
  mkDrawableSurface ∅ (width self) (height self).

(** [range(a, b)] on integers. *)
Definition zrange (a b : Z) : list Z :=
  map (fun i => (a + Z.of_nat i)%Z) (seq 0 (Z.to_nat (b - a))).

(** The body of the inner loop of [draw_pixel]. *)
Definition plot (w h : Z) (c : color) (row : Z)
    (pix : gmap (Z * Z) color) (col : Z) : gmap (Z * Z) color :=
  if (0 <=? col)%Z && (col <? w)%Z && ((0 <=? row)%Z && (row <? h)%Z)
  then <[(col, row) := c]> pix else pix.

Definition draw_pixel (self : DrawableSurface) (pos : Coord) (c : color)
    (brush_size : Z) : DrawableSurface :=
  let pixels_offset := (brush_size / 2)%Z in
  let pix := surface self in
  let xx := py_int (x pos - inject_Z pixels_offset) in
  let yy := py_int (y pos - inject_Z pixels_offset) in
  let pix :=
    fold_left
      (fun pix row =>
         fold_left (plot (width self) (height self) c row)
           (zrange xx (xx + brush_size + 1)) pix)
      (zrange yy (yy + brush_size + 1)) pix in
  mkDrawableSurface pix (width self) (height self).

(** The pixels one [draw_pixel] writes: the square of [brush_size + 1]
    columns and rows from the corner [pos - brush_size // 2], cut to the
    surface. *)
Definition brush_covers (self : DrawableSurface) (pos : Coord)
    (brush_size : Z) (k : Z * Z) : Prop :=
  let xx := py_int (x pos - inject_Z (brush_size / 2)) in
  let yy := py_int (y pos - inject_Z (brush_size / 2)) in
  (xx <= k.1 <= xx + brush_size)%Z /\ (yy <= k.2 <= yy + brush_size)%Z /\
  (0 <= k.1 < width self)%Z /\ (0 <= k.2 < height self)%Z.

(** Every written pixel lies on the surface. *)
Definition on_surface (self : DrawableSurface) : Prop :=
  forall k, is_Some (surface self !! k) ->
            (0 <= k.1 < width self)%Z /\ (0 <= k.2 < height self)%Z.

(** ** [GraphicWindow] and [CirclesCollection.run] *)

(** What [handle_events] reads of a pygame event: its type, for a
    KEYDOWN its key, and whether
    [pygame.key.get_mods() & pygame.KMOD_CTRL] is non-zero at the moment
    the event is handled. *)
Inductive event_type : Set := QUIT | KEYDOWN | OTHER_EVENT.
Inductive key_code : Set := K_ESCAPE | K_s | K_OTHER.

Record event : Set := mkEvent {
  type : event_type;
  key : key_code;
  ctrl_mod : bool
}.

(** The window without its pygame display surface. *)
Record GraphicWindow : Set := mkGraphicWindow {
  window_width : Z;
  window_height : Z;
  running : bool
}.

Definition GraphicWindow_init (w h : Z) : GraphicWindow :=
  mkGraphicWindow w h true.

Definition is_run (self : GraphicWindow) : bool := running self.

Definition stop (self : GraphicWindow) : GraphicWindow :=
  mkGraphicWindow (window_width self) (window_height self) false.

(** [event.key == k] *)
Definition key_is (k k' : key_code) : bool :=
  match k, k' with
  | K_ESCAPE, K_ESCAPE | K_s, K_s | K_OTHER, K_OTHER => true
  | _, _ => false
  end.

(** The body of the loop of [handle_events]. *)
Definition handle_event (self : GraphicWindow) (e : event) : GraphicWindow :=
  match type e with
  | QUIT => stop self
  | KEYDOWN =>
      if key_is (key e) K_ESCAPE then stop self
      else if ctrl_mod e && key_is (key e) K_s then stop self
      else self
  | OTHER_EVENT => self
  end.

(** [handle_events], on the events [pygame.event.get()] returns. *)
Definition handle_events (self : GraphicWindow) (events : list event)
  : GraphicWindow :=
  fold_left handle_event events self.

(** An event that ends the run. *)
Definition stops (e : event) : bool :=
  match type e, key e with
  | QUIT, _ => true
  | KEYDOWN, K_ESCAPE => true
  | KEYDOWN, K_s => ctrl_mod e
  | _, _ => false
  end.

(** [l[-1]] *)
Definition getitem_last {A} (l : list A) : Result A :=
  match last l with
  | Some a => Ok a
  | None => Raise IndexError
  end.

(** The state of [run]: the collection, the window and the two layers
    [image_points] (the trace) and [image_circles] (the rings).  The
    display surface of the window, to which the layers are blitted and
    which [flip] shows and clears, is pygame's and left out. *)
Record RunState : Type := mkRunState {
  collection : CirclesCollection;
  window : GraphicWindow;
  image_points : DrawableSurface;
  image_circles : DrawableSurface
}.

(** The two nested loops that draw every pixel of every circle. *)
Definition draw_rings (cs : list Circle) (img : DrawableSurface)
  : DrawableSurface :=
  fold_left
    (fun img circle =>
       fold_left (fun img pixel => draw_pixel img pixel (255, 255, 255)%Z 1)
         (get_pixels circle) img)
    cs img.

Section Run.
Variables (cos sin : Q -> Q) (pi : Q).

(** One round of the [while] loop of [run], on the events its
    [handle_events] finds. *)
Definition run_frame (events : list event) (st : RunState)
  : Result RunState :=
  let window := handle_events (window st) events in
  let! self := tick cos sin pi (collection st) in
  let image_circles :=
    if draw_circles self
    then draw_rings (circles self) (fill_transparent (image_circles st))
    else image_circles st in
  let! tip := getitem_last (circles self) in
  let image_points :=
    draw_pixel (image_points st) (center tip) (line_color self)
      (brush_line_size self) in
  Ok (mkRunState self window image_points image_circles).

(** The state before the loop. *)
Definition run_start (self : CirclesCollection) : RunState :=
  mkRunState self
    (GraphicWindow_init (scene_width self) (scene_height self))
    (fill_transparent
       (DrawableSurface_init (scene_width self) (scene_height self)))
    (DrawableSurface_init (scene_width self) (scene_height self)).

(** The [while window.is_run()] loop on the event batches of the
    successive rounds; with the batches used up and the window still
    running, the state reached so far. *)
Fixpoint run_loop (batches : list (list event)) (st : RunState)
  : Result RunState :=
  match batches with
  | [] => Ok st
  | events :: batches' =>
      if is_run (window st)
      then let! st' := run_frame events st in run_loop batches' st'
      else Ok st
  end.

Definition run (self : CirclesCollection) (batches : list (list event))
  : Result RunState :=
  run_loop batches (run_start self).
End Run.

(** The collection with another [circles_color]. *)
Definition with_circles_color (cc : CirclesCollection) (col : Z * Z * Z)
  : CirclesCollection :=
  mkCirclesCollection (circles cc) (line_points cc) (cur_point_index cc)
    (first_circle_center cc) (scene_width cc) (scene_height cc)
    (brush_line_size cc) col (line_color cc) (draw_circles cc).

(** A collection as [__init__] leaves it: at least one rotor, every
    rotor with aligned pixel lists. *)
Definition tickable (cc : CirclesCollection) : Prop :=
  Forall pixels_aligned (circles cc) /\ circles cc <> [].

(** The state with another [circles_color] in its collection. *)
Definition recolor (col : Z * Z * Z) (st : RunState) : RunState :=
  mkRunState (with_circles_color (collection st) col) (window st)
    (image_points st) (image_circles st).

(** [k] is a pixel of the brush of some world pixel of some rotor. *)
Definition ring_pixel (cs : list Circle) (img : DrawableSurface)
    (k : Z * Z) : Prop :=
  exists circle p, In circle cs /\ In p (pixels circle) /\
                   brush_covers img p 1 k.

(** A batch of events without a stopping one, and the QUIT event. *)
Definition quiet (events : list event) : Prop :=
  forallb (fun e => negb (stops e)) events = true.
Definition quit_event : event := mkEvent QUIT K_OTHER false.

(** The sample chain with rotors that draw no rings. *)
Definition plain_chain : CirclesCollection :=
  mkCirclesCollection [rotor0 false; rotor1 false]
    [mkCoord (-10000) (-10000); mkCoord (-10000) (-10000)]
    0%Z anchor 800 600 5 (255, 255, 255)%Z (155, 10, 20)%Z false.

Definition white : color := (255, 255, 255)%Z.

(** The ring layer shows the rings of the rotors as they are now, in
    white, and nothing else. *)
Definition rings_shown (st : RunState) : Prop :=
  forall k : Z * Z,
    (surface (image_circles st) !! k = Some white /\
     ring_pixel (circles (collection st)) (image_circles st) k) \/
    (surface (image_circles st) !! k = None /\
     ~ ring_pixel (circles (collection st)) (image_circles st) k).

(** ** The initial text of the editor ([GUI.__init__]) *)

Section InitCode.
(** A Python string is a list of characters; [' '] and ['\n']. *)
Variable char : Type.
Variables (space newline : char).

(** The first loop: [max_len], the length of the longest parameter
    line.  A parameter is the pair of its line and its comment. *)
Definition longest (params : list (list char * list char)) : nat :=
  fold_left (fun max_len s_list => Nat.max (length s_list.1) max_len)
    params 0%nat.

(** [''.join([' ' for _ in range(n)])] for an integer [n]. *)
Definition spaces (n : Z) : list char := repeat space (Z.to_nat n).

(** The second loop: the parameter lines with their comments. *)
Definition params_code (params : list (list char * list char))
  : list char :=
  let max_len := longest params in
  fold_left
    (fun init_code s_list =>
       init_code
       ++ (((s_list.1
             ++ spaces (Z.of_nat max_len - Z.of_nat (length s_list.1) + 2))
            ++ s_list.2) ++ [newline]))
    params [].
End InitCode.

(** * Properties *)

(** ** Numbers *)

Lemma py_int_nonneg (q : Q) : 0 <= q -> py_int q = Qfloor q.
Proof.
  destruct q as [n d]. unfold Qle, py_int, Qfloor. simpl. intros Hn.
  apply Z.quot_div_nonneg; lia.
Qed.

Lemma py_int_nonpos (q : Q) : q <= 0 -> py_int q = Qceiling q.
Proof.
  destruct q as [n d]. unfold Qle, py_int, Qceiling, Qfloor. simpl.
  intros Hn.
  rewrite <- (Z.opp_involutive n) at 1.
  rewrite Z.quot_opp_l by lia.
  f_equal. apply Z.quot_div_nonneg; lia.
Qed.

Lemma py_int_comp (q q' : Q) : q == q' -> py_int q = py_int q'.
Proof.
  intros E. destruct (Qlt_le_dec q 0) as [Hneg | Hpos].
  - rewrite !py_int_nonpos by (rewrite <- ?E; lra). now rewrite E.
  - rewrite !py_int_nonneg by (rewrite <- ?E; lra). now rewrite E.
Qed.

(** [int] cuts the fraction off: toward zero from either side. *)
Lemma py_int_toward_zero (q : Q) :
  (0 <= q -> inject_Z (py_int q) <= q < inject_Z (py_int q) + 1) /\
  (q <= 0 -> inject_Z (py_int q) - 1 < q <= inject_Z (py_int q)).
Proof.
  split; intros H.
  - rewrite py_int_nonneg by exact H. split.
    + apply Qfloor_le.
    + pose proof (Qlt_floor q) as L. rewrite inject_Z_plus in L. exact L.
  - rewrite py_int_nonpos by exact H. split.
    + pose proof (Qceiling_lt q) as L.
      unfold Z.sub in L. rewrite inject_Z_plus in L. exact L.
    + apply Qle_ceiling.
Qed.

Lemma py_mod_comp (a a' b b' : Q) :
  a == a' -> b == b' -> py_mod a b == py_mod a' b'.
Proof.
  intros Ea Eb. unfold py_mod.
  assert (F : Qfloor (a / b) = Qfloor (a' / b')).
  { apply Qfloor_comp. now rewrite Ea, Eb. }
  rewrite F. now rewrite Ea, Eb.
Qed.

Lemma py_mod_range (a m : Q) : 0 < m -> 0 <= py_mod a m < m.
Proof.
  intros Hm. unfold py_mod.
  pose proof (Qfloor_le (a / m)) as Hlo.
  pose proof (Qlt_floor (a / m)) as Hhi.
  rewrite inject_Z_plus in Hhi.
  set (f := inject_Z (Qfloor (a / m))) in *.
  assert (Ea : a == m * (a / m)) by (field; lra).
  split.
  - assert (m * f <= m * (a / m)) by (apply Qmult_le_l; assumption).
    lra.
  - assert (m * (a / m) < m * (f + 1)) by (apply Qmult_lt_l; assumption).
    lra.
Qed.

Lemma Qfloor_unit (q : Q) : 0 <= q < 1 -> Qfloor q = 0%Z.
Proof.
  intros [Hlo Hhi].
  assert (L : (0 <= Qfloor q)%Z).
  { change 0%Z with (Qfloor 0). now apply Qfloor_resp_le. }
  pose proof (Qfloor_le q) as U.
  assert (inject_Z (Qfloor q) < inject_Z 1) as U'
    by (change (inject_Z 1) with 1; lra).
  rewrite <- Zlt_Qlt in U'. lia.
Qed.

Lemma py_mod_small (a m : Q) : 0 <= a < m -> py_mod a m == a.
Proof.
  intros [Hlo Hhi]. unfold py_mod.
  assert (Hm : 0 < m) by lra.
  rewrite Qfloor_unit; [change (inject_Z 0) with 0; ring|].
  split.
  - apply Qle_shift_div_l; lra.
  - apply Qlt_shift_div_r; lra.
Qed.

Lemma py_ge_true (a b : Q) : py_ge a b = true <-> b <= a.
Proof. apply Qle_bool_iff. Qed.

Lemma py_le_true (a b : Q) : py_le a b = true <-> a <= b.
Proof. apply Qle_bool_iff. Qed.

Lemma py_le_false (a b : Q) : py_le a b = false <-> b < a.
Proof.
  unfold py_le. split; intros H.
  - apply Qnot_le_lt. intros L. apply Qle_bool_iff in L. congruence.
  - apply not_true_is_false. intros L. apply Qle_bool_iff in L. lra.
Qed.

Lemma py_gt_true (a b : Q) : py_gt a b = true <-> b < a.
Proof. unfold py_gt. rewrite negb_true_iff. apply py_le_false. Qed.

(** ** [update_angle] *)

Lemma update_angle_velocity (c : Circle) :
  angle_velocity (update_angle c) = angle_velocity c.
Proof. reflexivity. Qed.

Lemma iter_update_angle_velocity (n : nat) (c : Circle) :
  angle_velocity (Nat.iter n update_angle c) = angle_velocity c.
Proof. induction n as [|n IH]; simpl; [reflexivity | exact IH]. Qed.

Lemma update_angle_bounds (c : Circle) : 0 <= angle (update_angle c) < 360.
Proof. simpl. apply py_mod_range. reflexivity. Qed.

Lemma update_angle_fixed (c : Circle) :
  angle_velocity c == 0 -> 0 <= angle c < 360 ->
  angle (update_angle c) == angle c.
Proof.
  intros Hv [Hlo Hhi]. simpl.
  assert (Hs : py_ge (angle c) 0 = true) by now apply py_ge_true.
  rewrite Hs.
  assert (E : 1 * (angle c + angle_velocity c) == angle c)
    by (rewrite Hv; ring).
  rewrite (py_mod_comp _ (angle c) 360 360 E) by reflexivity.
  apply py_mod_small. now split.
Qed.

Lemma update_angle_abs (c : Circle) :
  angle_velocity c == 0 ->
  angle (update_angle c) == py_mod (Qabs (angle c)) 360.
Proof.
  intros Hv. simpl. apply py_mod_comp; [|reflexivity].
  destruct (py_ge (angle c) 0) eqn:Hs.
  - apply py_ge_true in Hs. rewrite Qabs_pos by exact Hs. rewrite Hv. ring.
  - assert (Hneg : angle c < 0).
    { apply Qnot_le_lt. intros L. apply py_ge_true in L. congruence. }
    rewrite Qabs_neg by lra. rewrite Hv. ring.
Qed.


(** C6, as the claim reads, fails at a negative angle: the rotor at -30
    with velocity 0 is left at 30, where "-30 mod 360 with its sign
    preserved" is -30 (and Python's own [-30 % 360] is 330). *)
Lemma update_angle_sign_not_preserved :
  angle_velocity rotor_minus30 == 0 /\
  angle rotor_minus30 == -30 /\
  angle (update_angle rotor_minus30) == 30 /\
  signed_mod (angle rotor_minus30) 360 == -30 /\
  py_mod (angle rotor_minus30) 360 == 330 /\
  ~ angle (update_angle rotor_minus30) == signed_mod (angle rotor_minus30) 360.
Proof.
  repeat split; try reflexivity. intros H. vm_compute in H. discriminate H.
Qed.

(** C6, amended.  With velocity 0 one [update_angle] leaves the absolute
    value of the angle reduced modulo 360, a number in [0, 360); for a
    non-negative angle this is the angle mod 360 with its sign, and the
    angle is the same after every later [update_angle]. *)
Theorem update_angle_zero_velocity (c : Circle) :
  angle_velocity c == 0 ->
  angle (update_angle c) == py_mod (Qabs (angle c)) 360 /\
  (0 <= angle c -> angle (update_angle c) == signed_mod (angle c) 360) /\
  forall n : nat,
    angle (Nat.iter (S n) update_angle c) == angle (update_angle c).
Proof.
  intros Hv. split; [|split].
  - now apply update_angle_abs.
  - intros Hpos. rewrite update_angle_abs by exact Hv.
    unfold signed_mod.
    assert (Hs : py_ge (angle c) 0 = true) by now apply py_ge_true.
    rewrite Hs. ring.
  - induction n as [|n IH]; [reflexivity|].
    change (Nat.iter (S (S n)) update_angle c)
      with (update_angle (Nat.iter (S n) update_angle c)).
    rewrite update_angle_fixed.
    + exact IH.
    + rewrite iter_update_angle_velocity. exact Hv.
    + change (Nat.iter (S n) update_angle c)
        with (update_angle (Nat.iter n update_angle c)).
      apply update_angle_bounds.
Qed.

Lemma update_angle_zero_velocity_witness :
  angle_velocity rotor_minus30 == 0 /\
  angle (update_angle rotor_minus30) == py_mod (Qabs (angle rotor_minus30)) 360.
Proof.
  split; [reflexivity|].
  apply (update_angle_zero_velocity rotor_minus30). reflexivity.
Defined.

(** ** The exception monad and the loops *)

Lemma getitem_Some {A} (l : list A) (i : nat) (a : A) :
  l !! i = Some a -> getitem l i = Ok a.
Proof. unfold getitem. now intros ->. Qed.

Lemma setitem_lt {A} (l : list A) (i : nat) (v : A) :
  (i < length l)%nat -> setitem l i v = Ok (<[i := v]> l).
Proof. unfold setitem. intros H. now rewrite decide_True. Qed.

(** The shape shared by the loop of [__init__] and the first loop of a
    tick: a body that rewrites slot [i] from slots [i] and [i - 1]. *)
Lemma for_each_pass (P : Circle -> Prop) (g : Circle -> Circle -> Circle)
    (body : nat -> list Circle -> Result (list Circle)) :
  (forall i cs ci cp,
      cs !! i = Some ci -> cs !! (i - 1)%nat = Some cp -> P ci ->
      body i cs = Ok (<[i := g ci cp]> cs)) ->
  forall (l pre : list Circle) (p : Circle),
    Forall P l ->
    for_each (seq (S (length pre)) (length l)) body (pre ++ p :: l)
    = Ok (pre ++ p :: pass g p l).
Proof.
  intros Hbody l. induction l as [|c l IH]; intros pre p HP.
  - reflexivity.
  - apply Forall_cons in HP as [Hc HP].
    cbn [length seq for_each].
    rewrite (Hbody _ _ c p).
    + cbn [bind].
      replace (<[S (length pre) := g c p]> (pre ++ p :: c :: l))
        with ((pre ++ [p]) ++ g c p :: l).
      * specialize (IH (pre ++ [p]) (g c p) HP).
        rewrite length_app in IH. cbn [length] in IH.
        rewrite Nat.add_1_r in IH. rewrite IH.
        now rewrite <- app_assoc.
      * rewrite <- app_assoc. cbn [app].
        replace (S (length pre)) with (length pre + 1)%nat by lia.
        now rewrite insert_app_r.
    + replace (S (length pre)) with (length pre + 1)%nat by lia.
      now rewrite lookup_app_r, Nat.add_comm, Nat.add_sub by lia.
    + replace (S (length pre) - 1)%nat with (length pre + 0)%nat by lia.
      now rewrite lookup_app_r, Nat.add_comm, Nat.add_sub by lia.
    + exact Hc.
Qed.

Lemma for_each_range_pass (P : Circle -> Prop)
    (g : Circle -> Circle -> Circle)
    (body : nat -> list Circle -> Result (list Circle)) :
  (forall i cs ci cp,
      cs !! i = Some ci -> cs !! (i - 1)%nat = Some cp -> P ci ->
      body i cs = Ok (<[i := g ci cp]> cs)) ->
  forall (c0 : Circle) (l : list Circle),
    Forall P l ->
    for_each (range 1 (length (c0 :: l))) body (c0 :: l)
    = Ok (c0 :: pass g c0 l).
Proof.
  intros Hbody c0 l HP. unfold range. cbn [length].
  rewrite Nat.sub_succ, Nat.sub_0_r.
  exact (for_each_pass P g body Hbody l [] c0 HP).
Qed.

Lemma Forall_impl' {A} (P Q : A -> Prop) (l : list A) :
  (forall a, P a -> Q a) -> Forall P l -> Forall Q l.
Proof. intros H F. induction F; constructor; auto. Qed.



Lemma pass_preserves {B} (f : Circle -> B) g :
  (forall c p, f (g c p) = f c) ->
  forall l p, map f (pass g p l) = map f l.
Proof.
  intros Hg l. induction l as [|c l IH]; intros p; cbn; [easy|].
  now rewrite Hg, IH.
Qed.

Lemma pass_Forall (P : Circle -> Prop) g :
  (forall c p, P c -> P (g c p)) ->
  forall l p, Forall P l -> Forall P (pass g p l).
Proof.
  intros Hg l. induction l as [|c l IH]; intros p H; cbn; [constructor|].
  apply Forall_cons in H as [Hc H]. constructor; auto.
Qed.

(** ** [recalc_center] *)

Section KinematicsFacts.
Variables (cos sin : Q -> Q) (pi : Q).

Abbreviation recalc_center := (recalc_center cos sin pi).
Abbreviation new_center := (new_center cos sin pi).
Abbreviation moved := (moved cos sin pi).
Abbreviation orbit_point := (orbit_point cos sin pi).

Lemma with_pixels_id (c : Circle) : with_pixels c (pixels c) = c.
Proof. now destruct c. Qed.

(** The loop over [range(len(self.inner_pixels))], entered at index [k]
    with the first [k] slots of [pixels] already written. *)
Lemma move_pixels_from (m k : nat) (self : Circle) :
  (k + m)%nat = length (inner_pixels self) ->
  pixels_aligned self ->
  take k (pixels self)
  = map (translate (center self)) (take k (inner_pixels self)) ->
  for_each (seq k m) move_pixel self
  = Ok (with_pixels self
          (map (translate (center self)) (inner_pixels self))).
Proof.
  revert k self. induction m as [|m IH]; intros k self Hk Hal Hdone.
  - cbn. rewrite Nat.add_0_r in Hk.
    rewrite !take_ge in Hdone by (rewrite ?Hal; lia).
    rewrite <- Hdone. now rewrite with_pixels_id.
  - cbn [seq for_each]. unfold move_pixel at 1.
    destruct (lookup_lt_is_Some_2 (inner_pixels self) k) as [p Hp];
      [lia|].
    rewrite (getitem_Some _ _ _ Hp). cbn [bind].
    rewrite setitem_lt by (rewrite Hal; lia). cbn [bind].
    rewrite IH.
    + reflexivity.
    + cbn. lia.
    + unfold pixels_aligned. cbn. now rewrite length_insert.
    + cbn [with_pixels pixels inner_pixels center].
      rewrite (take_S_r _ _ _ Hp), map_app.
      erewrite take_S_r.
      * rewrite take_insert_ge by lia. rewrite Hdone. reflexivity.
      * apply list_lookup_insert_eq. rewrite Hal. lia.
Qed.

(** [recalc_center] never raises on a rotor whose [pixels] are aligned,
    and leaves [moved]. *)
Lemma recalc_center_moved (self prev : Circle) :
  pixels_aligned self -> recalc_center self prev = Ok (moved self prev).
Proof.
  intros Hal. unfold recalc_center.
  cbn [with_center is_draw_circles center angle inner_pixels x y].
  destruct (is_draw_circles self) eqn:Hd.
  - unfold range. rewrite Nat.sub_0_r.
    rewrite move_pixels_from; try reflexivity; [|exact Hal].
    unfold moved. destruct self; cbn in *. now subst.
  - unfold moved. destruct self; cbn in *. now subst.
Qed.

Lemma moved_aligned (self prev : Circle) :
  pixels_aligned self -> pixels_aligned (moved self prev).
Proof.
  unfold pixels_aligned, moved. cbn. intros H.
  destruct (is_draw_circles self); [now rewrite length_map | exact H].
Qed.

Lemma update_angle_aligned (c : Circle) :
  pixels_aligned c -> pixels_aligned (update_angle c).
Proof. easy. Qed.


Lemma Circle_init_aligned d a rad v : pixels_aligned (Circle_init d a rad v).
Proof. reflexivity. Qed.

(** The program's [(2 * value + thickness) / 2] is the midline radius. *)
Lemma new_center_orbit (self prev : Circle) :
  new_center self prev = orbit_point (center prev) (r prev) (angle self).
Proof.
  unfold new_center, orbit_point, midline, radians.
  f_equal; f_equal; apply py_int_comp;
    apply Qplus_comp; try reflexivity;
    apply Qmult_comp; try reflexivity; field.
Qed.
End KinematicsFacts.

(** ** The chain: construction and tick *)

Section ChainFacts.
Variables (cos sin : Q -> Q) (pi : Q).

Abbreviation recalc_center' := (recalc_center cos sin pi).
Abbreviation moved' := (moved cos sin pi).
Abbreviation tick' := (tick cos sin pi).
Abbreviation ticks' := (ticks cos sin pi).
Abbreviation init' := (CirclesCollection_init cos sin pi).

Lemma recalc_at_body i (cs : list Circle) ci cp :
  cs !! i = Some ci -> cs !! (i - 1)%nat = Some cp -> pixels_aligned ci ->
  recalc_at cos sin pi i cs = Ok (<[i := moved' ci cp]> cs).
Proof.
  intros Hi Hp Hal. unfold recalc_at.
  rewrite (getitem_Some _ _ _ Hi), (getitem_Some _ _ _ Hp). cbn [bind].
  now rewrite recalc_center_moved.
Qed.

Lemma add_velocity_at_body i (cs : list Circle) ci cp :
  cs !! i = Some ci -> cs !! (i - 1)%nat = Some cp -> True ->
  add_velocity_at i cs = Ok (<[i := add_angle_velocity ci cp]> cs).
Proof.
  intros Hi Hp _. unfold add_velocity_at.
  now rewrite (getitem_Some _ _ _ Hi), (getitem_Some _ _ _ Hp).
Qed.

(** [recalc_center] reads the center and the ring of its argument, not
    its angle. *)
Lemma moved_update_angle_prev (c p : Circle) :
  moved' c (update_angle p) = moved' c p.
Proof. reflexivity. Qed.

Lemma tick_nil (chain : CirclesCollection) :
  circles chain = [] -> tick' chain = Ok (with_circles chain []).
Proof. unfold tick. now intros ->. Qed.

Lemma tick_cons (chain : CirclesCollection) c0 l :
  circles chain = c0 :: l -> Forall pixels_aligned l ->
  tick' chain
  = Ok (with_circles chain (map update_angle (c0 :: pass moved' c0 l))).
Proof.
  intros E Hal. unfold tick. rewrite E.
  rewrite (for_each_range_pass pixels_aligned moved'); [reflexivity| |exact Hal].
  intros i cs ci cp. apply recalc_at_body.
Qed.

Lemma init_cons c0 l first_center w h b ccol lcol d :
  pixels_aligned c0 ->
  init' (c0 :: l) first_center w h b ccol lcol d
  = Ok (mkCirclesCollection
          (moved' c0 (temp_circle d first_center)
           :: pass add_angle_velocity
                (moved' c0 (temp_circle d first_center)) l)
          [mkCoord (-10000) (-10000); mkCoord (-10000) (-10000)]
          0%Z first_center w h b ccol lcol d).
Proof.
  intros Hal. unfold CirclesCollection_init.
  cbn [getitem lookup list_lookup bind].
  rewrite recalc_center_moved by exact Hal. cbn [bind].
  change (<[0%nat := ?c]> (c0 :: l)) with (c :: l).
  rewrite (for_each_range_pass (fun _ => True) add_angle_velocity).
  - reflexivity.
  - intros i cs ci cp. apply add_velocity_at_body.
  - now apply Forall_forall.
Qed.

(** Ticks go through, keep the alignment of the pixel lists and every
    field that [recalc_center] and [update_angle] leave alone. *)
Lemma tick_keeps (chain : CirclesCollection) :
  Forall pixels_aligned (circles chain) ->
  exists chain',
    tick' chain = Ok chain' /\
    Forall pixels_aligned (circles chain') /\
    forall (B : Type) (f : Circle -> B),
      (forall c p, f (moved' c p) = f c) ->
      (forall c, f (update_angle c) = f c) ->
      map f (circles chain') = map f (circles chain).
Proof.
  intros Hal. destruct (circles chain) as [|c0 l] eqn:E.
  - exists (with_circles chain []). split; [now apply tick_nil|].
    split; [constructor|]. intros B f _ _. reflexivity.
  - apply Forall_cons in Hal as [H0 Hl].
    eexists. split; [exact (tick_cons chain c0 l E Hl)|]. split.
    + cbn [with_circles circles].
      assert (H : Forall pixels_aligned (c0 :: pass moved' c0 l)).
      { constructor; [exact H0|].
        apply pass_Forall; [|exact Hl]. intros c p. apply moved_aligned. }
      apply Forall_map. revert H. apply Forall_impl'. now intros c Hc.
    + intros B f Hm Hu. cbn [with_circles circles].
      rewrite map_map. cbn [map]. rewrite Hu. f_equal.
      rewrite <- (pass_preserves f moved' Hm l c0).
      apply map_ext. intros c. apply Hu.
Qed.

Lemma ticks_keeps (n : nat) (chain : CirclesCollection) :
  Forall pixels_aligned (circles chain) ->
  exists chain',
    ticks' n chain = Ok chain' /\
    forall (B : Type) (f : Circle -> B),
      (forall c p, f (moved' c p) = f c) ->
      (forall c, f (update_angle c) = f c) ->
      map f (circles chain') = map f (circles chain).
Proof.
  revert chain. induction n as [|n IH]; intros chain Hal.
  - exists chain. split; [reflexivity|]. reflexivity.
  - destruct (tick_keeps chain Hal) as (c1 & E1 & Hal1 & K1).
    destruct (IH c1 Hal1) as (c2 & E2 & K2).
    exists c2. split.
    + cbn [ticks]. rewrite E1. exact E2.
    + intros B f Hm Hu. rewrite K2, K1; auto.
Qed.
End ChainFacts.

(** ** The statements of the specification: kinematics *)



(** C5.  For a rotor that draws its ring, right after every
    [recalc_center] each world pixel is the mask point of the same index
    plus the center, and the mask is the one the rotor had; no method of
    [Circle] and no tick changes a mask. *)
Theorem recalc_center_world_pixels (cos sin : Q -> Q) (pi : Q)
    (self parent : Circle) :
  pixels_aligned self -> is_draw_circles self = true ->
  exists self',
    recalc_center cos sin pi self parent = Ok self' /\
    inner_pixels self' = inner_pixels self /\
    length (pixels self') = length (inner_pixels self') /\
    (forall (i : nat) (p : Coord),
        inner_pixels self' !! i = Some p ->
        pixels self' !! i
        = Some (mkCoord (x p + x (center self')) (y p + y (center self')))) /\
    inner_pixels (update_angle self) = inner_pixels self /\
    (forall other, inner_pixels (add_angle_velocity self other)
                   = inner_pixels self) /\
    (forall c, inner_pixels (set_center self c) = inner_pixels self) /\
    forall (chain : CirclesCollection) (n : nat),
      Forall pixels_aligned (circles chain) ->
      exists chain',
        ticks cos sin pi n chain = Ok chain' /\
        map inner_pixels (circles chain') = map inner_pixels (circles chain).
Proof.
  intros Hal Hd. exists (moved cos sin pi self parent).
  split; [now apply recalc_center_moved|].
  split; [reflexivity|]. split; [now apply moved_aligned|].
  split; [|repeat split].
  - intros i p Hp. cbn [moved pixels inner_pixels center] in *.
    rewrite Hd. change (map ?f ?l) with (f <$> l).
    rewrite list_lookup_fmap, Hp. reflexivity.
  - intros chain n Hch.
    destruct (ticks_keeps cos sin pi n chain Hch) as (chain' & E & K).
    exists chain'. split; [exact E|]. now apply K.
Qed.

Lemma recalc_center_world_pixels_witness :
  pixels_aligned (rotor1 true) /\ is_draw_circles (rotor1 true) = true /\
  exists self',
    recalc_center cos_poly sin_poly pi_double (rotor1 true) (rotor0 true)
    = Ok self' /\
    inner_pixels self' = inner_pixels (rotor1 true).
Proof.
  split; [reflexivity|]. split; [reflexivity|].
  destruct (recalc_center_world_pixels cos_poly sin_poly pi_double
              (rotor1 true) (rotor0 true)) as (self' & E & Hi & _).
  - reflexivity.
  - reflexivity.
  - exists self'. split; [exact E | exact Hi].
Defined.



(** ** The statements of the specification: construction *)





(** C8.  Construction from the empty rotor sequence raises (the
    IndexError of [circles[0]]) and so yields no chain, whatever the
    other arguments are. *)
Theorem init_empty_raises (cos sin : Q -> Q) (pi : Q) (first_center : Coord)
    (w h b : Z) (ccol lcol : Z * Z * Z) (d : bool) :
  CirclesCollection_init cos sin pi [] first_center w h b ccol lcol d
  = Raise IndexError /\
  forall chain,
    CirclesCollection_init cos sin pi [] first_center w h b ccol lcol d
    <> Ok chain.
Proof. split; [reflexivity | discriminate]. Qed.

(** ** The end-to-end scenario *)

Section Scenario.
Variables (cos sin : Q -> Q) (pi : Q).
(** What the scenario uses of [math.cos] and [math.sin]. *)
Hypothesis cos_0 : forall q, q == 0 -> cos q == 1.
Hypothesis sin_0 : forall q, q == 0 -> sin q == 0.

Lemma new_center_angle_0 (self prev : Circle) :
  angle self == 0 ->
  new_center cos sin pi self prev
  = mkCoord
      (inject_Z (py_int (x (center prev)
                         + (2 * value (r prev) + thickness (r prev)) / 2)))
      (inject_Z (py_int (y (center prev)))).
Proof.
  intros Ha. unfold new_center.
  assert (E : angle self / 180 * pi == 0) by (rewrite Ha; field).
  f_equal; f_equal; apply py_int_comp.
  - rewrite (cos_0 _ E). ring.
  - rewrite (sin_0 _ E). ring.
Qed.
End Scenario.

(** C7.  The chain of rotor0 = ring (10, 2), angle 0, velocity 0 and
    rotor1 = ring (5, 1), angle 0, velocity 10 at the anchor (100, 100),
    with [cos 0 = 1] and [sin 0 = 0]: construction puts rotor0 at
    (101, 100), the reference ring having midline radius 3/2; one tick
    leaves rotor1 at angle 10 with center (112, 100), rotor0's ring
    having midline radius 11. *)
Theorem two_rotor_scenario (cos sin : Q -> Q) (pi : Q) (idc d : bool)
    (w h b : Z) (ccol lcol : Z * Z * Z) :
  (forall q, q == 0 -> cos q == 1) ->
  (forall q, q == 0 -> sin q == 0) ->
  exists chain chain' r0 r1 r1',
    CirclesCollection_init cos sin pi [rotor0 idc; rotor1 idc] anchor
      w h b ccol lcol d = Ok chain /\
    circles chain = [r0; r1] /\
    midline (r (temp_circle d anchor)) == 3 # 2 /\
    center r0 = mkCoord 101 100 /\
    tick cos sin pi chain = Ok chain' /\
    circles chain' !! 1%nat = Some r1' /\
    midline (r r0) == 11 /\
    angle r1 == 0 /\
    angle r1' == 10 /\
    center r1' = mkCoord 112 100.
Proof.
  intros cos_0 sin_0.
  set (m0 := moved cos sin pi (rotor0 idc) (temp_circle d anchor)).
  set (m1 := add_angle_velocity (rotor1 idc) m0).
  assert (C0 : center m0 = mkCoord 101 100).
  { unfold m0. cbn [moved center].
    now rewrite (new_center_angle_0 cos sin pi cos_0 sin_0). }
  eexists _, _, m0, m1, (update_angle (moved cos sin pi m1 m0)).
  split; [apply init_cons; reflexivity|].
  split; [reflexivity|]. split; [reflexivity|]. split; [exact C0|].
  split; [apply (tick_cons cos sin pi _ m0 [m1]); [reflexivity|]|].
  { repeat constructor. }
  split; [reflexivity|]. split; [reflexivity|]. split; [reflexivity|].
  split; [reflexivity|].
  cbn [update_angle with_angle center moved].
  rewrite (new_center_angle_0 cos sin pi cos_0 sin_0) by reflexivity.
  rewrite C0. reflexivity.
Qed.

Lemma two_rotor_scenario_witness :
  (forall q, q == 0 -> cos_poly q == 1) /\
  (forall q, q == 0 -> sin_poly q == 0) /\
  exists chain r0 r1,
    CirclesCollection_init cos_poly sin_poly pi_double
      [rotor0 true; rotor1 true] anchor 800 600 5
      (255, 255, 255)%Z (155, 10, 20)%Z true = Ok chain /\
    circles chain = [r0; r1] /\
    center r0 = mkCoord 101 100.
Proof.
  assert (Hc : forall q, q == 0 -> cos_poly q == 1).
  { intros q E. unfold cos_poly. rewrite E. reflexivity. }
  assert (Hs : forall q, q == 0 -> sin_poly q == 0).
  { intros q E. unfold sin_poly. rewrite E. reflexivity. }
  split; [exact Hc|]. split; [exact Hs|].
  destruct (two_rotor_scenario cos_poly sin_poly pi_double true true 800 600 5
              (255, 255, 255)%Z (155, 10, 20)%Z Hc Hs)
    as (chain & _ & r0 & r1 & _ & E & L & _ & C & _).
  exists chain, r0, r1. split; [exact E|]. split; [exact L | exact C].
Defined.

(** ** [calc_pixels] *)

Lemma Coord_eq_true (p q : Coord) :
  Coord_eq p q = true <-> x p == x q /\ y p == y q.
Proof.
  unfold Coord_eq. rewrite andb_true_iff, !Qeq_bool_iff. reflexivity.
Qed.

Lemma in_mask_iff (p : Coord) (l : list Coord) :
  in_mask p l <-> exists q, In q l /\ x p == x q /\ y p == y q.
Proof.
  unfold in_mask. rewrite existsb_exists.
  split; intros (q & Hq & E); exists q; (split; [exact Hq|]);
    now apply Coord_eq_true.
Qed.

Lemma inject_Z_succ (k : nat) :
  inject_Z (Z.of_nat (S k)) == inject_Z (Z.of_nat k) + 1.
Proof.
  rewrite Nat2Z.inj_succ. unfold Z.succ. rewrite inject_Z_plus. reflexivity.
Qed.

Lemma inject_Z_nat_nonneg (k : nat) : 0 <= inject_Z (Z.of_nat k).
Proof. change 0 with (inject_Z 0). rewrite <- Zle_Qle. lia. Qed.

Lemma in_steps (n : nat) (v q : Q) :
  In q (steps n v) ->
  exists k : nat, (k < n)%nat /\ q == v + inject_Z (Z.of_nat k).
Proof.
  revert v. induction n as [|n IH]; intros v H; [easy|].
  destruct H as [<- | H].
  - exists 0%nat. split; [lia|]. cbn. ring.
  - destruct (IH _ H) as (k & Hk & E). exists (S k). split; [lia|].
    rewrite E, inject_Z_succ. ring.
Qed.

Lemma steps_in (n : nat) (v : Q) (k : nat) :
  (k < n)%nat ->
  exists q, In q (steps n v) /\ q == v + inject_Z (Z.of_nat k).
Proof.
  revert v k. induction n as [|n IH]; intros v k Hk; [lia|].
  destruct k as [|k].
  - exists v. split; [now left|]. cbn. ring.
  - destruct (IH (v + 1) k) as (q & Hq & E); [lia|].
    exists q. split; [now right|].
    rewrite E, inject_Z_succ. ring.
Qed.

Section LoopFacts.
Variable self : Circle.
Variables r_inner r_outer : Q.

Abbreviation keep' := (keep self r_inner r_outer).
Abbreviation row' := (row self r_inner r_outer).

Lemma rounds_left_S n v v_end :
  rounds_left (S n) v v_end ->
  v <= v_end /\ rounds_left n (v + 1) v_end.
Proof.
  unfold rounds_left. rewrite inject_Z_succ.
  intros [Hlt [Hz | Hle]]; [discriminate|].
  pose proof (inject_Z_nat_nonneg n).
  split; [lra|]. split; [lra|].
  destruct n as [|n]; [now left | right]. lra.
Qed.

Lemma row_S (n : nat) (xv yv : Q) :
  row' (S n) xv yv
  = (if keep' (mkCoord xv yv) then [mkCoord xv yv] else [])
      ++ row' n (xv + 1) yv.
Proof.
  unfold row. cbn [steps map List.filter].
  now destruct (keep' (mkCoord xv yv)).
Qed.

Lemma while_x_rounds (n fuel : nat) (yv xv x_end : Q) (acc : list Coord) :
  (n < fuel)%nat -> rounds_left n xv x_end ->
  while_x self r_inner r_outer fuel yv xv x_end acc
  = Some (acc ++ row' n xv yv).
Proof.
  revert fuel xv acc. induction n as [|n IH]; intros fuel xv acc Hf Hr;
    (destruct fuel as [|fuel]; [lia|]); cbn [while_x].
  - destruct Hr as [Hlt _]. change (inject_Z (Z.of_nat 0)) with 0 in Hlt.
    assert (E : py_le xv x_end = false) by (apply py_le_false; lra).
    rewrite E. unfold row. cbn. now rewrite app_nil_r.
  - apply rounds_left_S in Hr as [Hle Hr].
    assert (E : py_le xv x_end = true) by now apply py_le_true.
    rewrite E, IH by (lia || exact Hr).
    rewrite row_S.
    change (larger_inner self r_inner (mkCoord xv yv)
            && smaller_outer self r_outer (mkCoord xv yv))
      with (keep' (mkCoord xv yv)).
    destruct (keep' (mkCoord xv yv)); [|reflexivity].
    now rewrite <- app_assoc.
Qed.

Lemma while_y_rounds (nx n fuel_x fuel : nat) (yv y_end : Q)
    (acc : list Coord) :
  (nx < fuel_x)%nat -> (n < fuel)%nat ->
  rounds_left nx (x (center self) - r_outer) (x (center self) + r_outer) ->
  rounds_left n yv y_end ->
  while_y self r_inner r_outer fuel_x fuel yv y_end acc
  = Some (acc ++ concat (map (row' nx (x (center self) - r_outer))
                             (steps n yv))).
Proof.
  intros Hfx Hf Hrx. revert fuel yv acc Hf.
  induction n as [|n IH]; intros fuel yv acc Hf Hr;
    (destruct fuel as [|fuel]; [lia|]); cbn [while_y].
  - destruct Hr as [Hlt _]. change (inject_Z (Z.of_nat 0)) with 0 in Hlt.
    assert (E : py_le yv y_end = false) by (apply py_le_false; lra).
    rewrite E. cbn. now rewrite app_nil_r.
  - apply rounds_left_S in Hr as [Hle Hr].
    assert (E : py_le yv y_end = true) by now apply py_le_true.
    rewrite E, (while_x_rounds nx) by assumption.
    rewrite IH by (lia || exact Hr).
    cbn [steps map concat]. now rewrite <- app_assoc.
Qed.
End LoopFacts.

Lemma rounds_left_rounds (c ro : Q) : rounds_left (rounds ro) (c - ro) (c + ro).
Proof.
  unfold rounds_left, rounds.
  pose proof (Qfloor_le (2 * ro)) as Hlo.
  pose proof (Qlt_floor (2 * ro)) as Hhi.
  destruct (Z_lt_le_dec (Qfloor (2 * ro) + 1) 1) as [Hneg | Hpos].
  - assert (inject_Z (Qfloor (2 * ro) + 1) <= inject_Z 0)
      by (rewrite <- Zle_Qle; lia).
    change (inject_Z 0) with 0 in *.
    assert (E : Z.to_nat (Qfloor (2 * ro) + 1) = 0%nat) by lia.
    rewrite E. change (inject_Z (Z.of_nat 0)) with 0.
    split; [lra | now left].
  - rewrite Z2Nat.id by lia. rewrite inject_Z_plus in *.
    change (inject_Z 1) with 1 in *. split; [lra | right; lra].
Qed.

Lemma calc_pixels_run_enough (self : Circle) (fuel : nat) :
  let ro := value (r self) + thickness (r self) in
  (rounds ro < fuel)%nat ->
  calc_pixels_run fuel self
  = Some (concat (map (row self (value (r self)) ro (rounds ro)
                         (x (center self) - ro))
                      (steps (rounds ro) (y (center self) - ro)))).
Proof.
  intros ro Hf. unfold calc_pixels_run. fold ro.
  rewrite (while_y_rounds self (value (r self)) ro (rounds ro) (rounds ro));
    try assumption; try apply rounds_left_rounds.
  reflexivity.
Qed.

Lemma calc_pixels_rows (self : Circle) :
  let ro := value (r self) + thickness (r self) in
  calc_pixels self
  = concat (map (row self (value (r self)) ro (rounds ro)
                   (x (center self) - ro))
                (steps (rounds ro) (y (center self) - ro))).
Proof.
  intros ro. unfold calc_pixels. fold ro.
  rewrite calc_pixels_run_enough; [reflexivity|].
  unfold calc_pixels_fuel, rounds. fold ro. lia.
Qed.

Lemma sq_shift0 (a : Q) : (a - 0) ^ 2 == a ^ 2.
Proof. ring. Qed.

(** Around the origin, the test of the inner loop is the band. *)
Lemma keep_band (self : Circle) (rad : Radius) (p : Coord) :
  center self = mkCoord 0 0 ->
  keep self (value rad) (outer_radius rad) p = true <-> in_band rad p.
Proof.
  intros Hc. unfold keep, larger_inner, smaller_outer, in_band.
  rewrite andb_true_iff, py_gt_true, py_le_true, Hc. cbn [x y].
  rewrite !sq_shift0. reflexivity.
Qed.

Lemma in_band_same (rad : Radius) (p q : Coord) :
  x p == x q -> y p == y q -> in_band rad p -> in_band rad q.
Proof.
  unfold in_band. intros Ex Ey [H1 H2].
  assert (E : x p ^ 2 + y p ^ 2 == x q ^ 2 + y q ^ 2)
    by (rewrite Ex, Ey; reflexivity).
  rewrite <- E. now split.
Qed.

Lemma rounds_left_le (n k : nat) (v v_end : Q) :
  rounds_left n v v_end -> (k < n)%nat ->
  v + inject_Z (Z.of_nat k) <= v_end.
Proof.
  intros [_ [-> | H]] Hk; [lia|].
  assert (L : inject_Z (Z.of_nat k + 1) <= inject_Z (Z.of_nat n))
    by (rewrite <- Zle_Qle; lia).
  rewrite inject_Z_plus in L. change (inject_Z 1) with 1 in L. lra.
Qed.

Lemma rounds_gt (ro : Q) (i : Z) :
  (0 <= i)%Z -> inject_Z i <= 2 * ro -> (Z.to_nat i < rounds ro)%nat.
Proof.
  intros Hi Hle. unfold rounds.
  apply Qfloor_resp_le in Hle. rewrite Qfloor_Z in Hle. lia.
Qed.

(** The mask [__init__] stores: membership. *)
Lemma init_mask_grid (a : Q) (rad : Radius) (v : Q) (p : Coord) :
  in_mask p (inner_pixels (Circle_init true a rad v)) <-> grid_ring_point rad p.
Proof.
  set (self := mkCircle true (mkCoord 0 0) a v rad [] []).
  change (inner_pixels (Circle_init true a rad v)) with (calc_pixels self).
  rewrite calc_pixels_rows. cbn [self r center x y].
  unfold grid_ring_point.
  fold (outer_radius rad). set (ro := outer_radius rad).
  pose proof (rounds_left_rounds 0 ro) as Hr.
  rewrite in_mask_iff. split.
  - intros (q & Hq & Ex & Ey).
    apply List.in_concat in Hq as (rw & Hrw & Hq).
    apply List.in_map_iff in Hrw as (yy & <- & Hyy).
    unfold row in Hq. apply List.filter_In in Hq as [Hq Hk].
    apply List.in_map_iff in Hq as (xx & <- & Hxx).
    apply in_steps in Hxx as (i & Hi & Exx).
    apply in_steps in Hyy as (j & Hj & Eyy).
    cbn [x y] in Ex, Ey.
    exists (Z.of_nat i), (Z.of_nat j).
    pose proof (rounds_left_le _ _ _ _ Hr Hi).
    pose proof (rounds_left_le _ _ _ _ Hr Hj).
    split; [lia|]. split; [lia|].
    split; [rewrite Ex, Exx; ring|]. split; [rewrite Ey, Eyy; ring|].
    split; [rewrite Ex, Exx; lra|]. split; [rewrite Ey, Eyy; lra|].
    apply (in_band_same rad (mkCoord xx yy)); [now symmetry..|].
    now apply (keep_band self).
  - intros (i & j & Hi & Hj & Ex & Ey & Hx & Hy & Hb).
    destruct (steps_in (rounds ro) (0 - ro) (Z.to_nat i)) as (xx & Hxx & Exx).
    { apply rounds_gt; [exact Hi | lra]. }
    destruct (steps_in (rounds ro) (0 - ro) (Z.to_nat j)) as (yy & Hyy & Eyy).
    { apply rounds_gt; [exact Hj | lra]. }
    rewrite Z2Nat.id in Exx, Eyy by assumption.
    exists (mkCoord xx yy). cbn [x y].
    split; [|split; [rewrite Ex, Exx; ring | rewrite Ey, Eyy; ring]].
    apply List.in_concat. exists (row self (value rad) ro (rounds ro) (0 - ro) yy).
    split; [apply List.in_map_iff; now exists yy|].
    unfold row. apply List.filter_In. split.
    + apply List.in_map_iff. now exists xx.
    + apply (keep_band self); [reflexivity|].
      apply (in_band_same rad p); [cbn; rewrite Ex, Exx; ring
                                  |cbn; rewrite Ey, Eyy; ring|exact Hb].
Qed.


(** ** The statements of the specification: the rotor's constructor *)




(** C9, as the claim reads, fails: the constructor raises nothing for
    the ring (-5, -1) and returns the rotor with that ring. *)
Lemma negative_ring_accepted :
  value ring_negative < 0 /\ thickness ring_negative < 0 /\
  (forall e, Circle_new true 0 ring_negative 0 <> Raise e) /\
  exists c, Circle_new true 0 ring_negative 0 = Ok c /\
            r c = ring_negative /\ inner_pixels c = [].
Proof.
  split; [reflexivity|]. split; [reflexivity|]. split; [discriminate|].
  eexists. split; [reflexivity|]. split; [reflexivity|].
  vm_compute. reflexivity.
Qed.

(** C9, amended.  The constructor of a rotor checks nothing: for every
    ring, negative inner radius or thickness included, it returns the
    rotor, with the ring stored as given (so never clamped), the angle
    and velocity as given and the center at the origin. *)
Theorem rotor_constructor_accepts (d : bool) (a : Q) (rad : Radius) (v : Q) :
  exists c,
    Circle_new d a rad v = Ok c /\
    r c = rad /\ angle c = a /\ angle_velocity c = v /\
    is_draw_circles c = d /\ center c = mkCoord 0 0 /\
    pixels c = inner_pixels c.
Proof. eexists. split; [reflexivity|]. now repeat split. Qed.

(** * Further properties of the code *)

(** ** [Coord.__eq__] *)

(** X1.  [Coord.__eq__] is an equivalence on coordinates, and a clone is
    equal to its original. *)
Theorem Coord_eq_equivalence :
  (forall p, Coord_eq p p = true) /\
  (forall p q, Coord_eq p q = true -> Coord_eq q p = true) /\
  (forall p q s, Coord_eq p q = true -> Coord_eq q s = true ->
                 Coord_eq p s = true) /\
  (forall p, Coord_eq (clone p) p = true).
Proof.
  repeat split.
  - intros p. apply Coord_eq_true. split; reflexivity.
  - intros p q H. apply Coord_eq_true in H as [Hx Hy].
    apply Coord_eq_true. split; now symmetry.
  - intros p q s H1 H2. apply Coord_eq_true in H1 as [Hx1 Hy1].
    apply Coord_eq_true in H2 as [Hx2 Hy2].
    apply Coord_eq_true. split; etransitivity; eassumption.
  - intros p. apply Coord_eq_true. split; reflexivity.
Qed.

(** ** [update_angle], iterated *)










(** ** [recalc_center] and the chain, further *)

(** X4.  [recalc_center] forgets where the rotor was: the old center
    does not enter the result, and a second call against the same parent
    changes nothing. *)
Theorem recalc_center_idempotent (cos sin : Q -> Q) (pi : Q)
    (self parent : Circle) :
  pixels_aligned self ->
  exists s1,
    recalc_center cos sin pi self parent = Ok s1 /\
    recalc_center cos sin pi s1 parent = Ok s1 /\
    forall old : Coord,
      recalc_center cos sin pi (set_center self old) parent = Ok s1.
Proof.
  intros Hal. exists (moved cos sin pi self parent).
  split; [now apply recalc_center_moved|]. split.
  - rewrite recalc_center_moved by now apply moved_aligned.
    f_equal. unfold moved at 1. cbn [moved is_draw_circles angle
      angle_velocity r inner_pixels pixels].
    unfold moved, new_center. cbn [angle].
    destruct (is_draw_circles self); reflexivity.
  - intros old. now rewrite recalc_center_moved.
Qed.

Lemma recalc_center_idempotent_witness :
  pixels_aligned (rotor1 true) /\
  exists s1,
    recalc_center cos_poly sin_poly pi_double (rotor1 true) (rotor0 true)
    = Ok s1 /\
    recalc_center cos_poly sin_poly pi_double s1 (rotor0 true) = Ok s1.
Proof.
  split; [reflexivity|].
  destruct (recalc_center_idempotent cos_poly sin_poly pi_double
              (rotor1 true) (rotor0 true)) as (s1 & E1 & E2 & _).
  - reflexivity.
  - exists s1. split; [exact E1 | exact E2].
Defined.




(** [int] moves a number by less than 1. *)
Lemma py_int_error (q : Q) : Qabs (inject_Z (py_int q) - q) < 1.
Proof.
  destruct (py_int_toward_zero q) as [Hpos Hneg].
  destruct (Qlt_le_dec q 0) as [H | H].
  - destruct Hneg as [L U]; [lra|]. apply Qabs_Qlt_condition. lra.
  - destruct (Hpos H) as [L U]. apply Qabs_Qlt_condition. lra.
Qed.

Lemma orbit_offset_bound (p a c : Q) :
  0 <= a -> Qabs c <= 1 -> Qabs (inject_Z (py_int (p + a * c)) - p) < a + 1.
Proof.
  intros Ha Hc. pose proof (py_int_error (p + a * c)) as E.
  apply Qabs_Qlt_condition in E. apply Qabs_Qle_condition in Hc.
  assert (- a <= a * c) by nra.
  assert (a * c <= a) by nra.
  apply Qabs_Qlt_condition. lra.
Qed.

(** X6.  When the parent's midline radius is not negative and [cos],
    [sin] of the rotor's angle lie in [-1, 1], [recalc_center] puts the
    rotor within the midline radius plus one pixel of the parent's
    center, on either axis. *)
Theorem recalc_center_reach (cos sin : Q -> Q) (pi : Q)
    (self parent : Circle) :
  pixels_aligned self ->
  0 <= midline (r parent) ->
  Qabs (cos (angle self / 180 * pi)) <= 1 ->
  Qabs (sin (angle self / 180 * pi)) <= 1 ->
  exists s1,
    recalc_center cos sin pi self parent = Ok s1 /\
    Qabs (x (center s1) - x (center parent)) < midline (r parent) + 1 /\
    Qabs (y (center s1) - y (center parent)) < midline (r parent) + 1.
Proof.
  intros Hal Hm Hc Hs. exists (moved cos sin pi self parent).
  split; [now apply recalc_center_moved|].
  cbn [moved center]. rewrite new_center_orbit.
  unfold orbit_point, radians. cbn [x y].
  split; now apply orbit_offset_bound.
Qed.

Lemma recalc_center_reach_witness :
  pixels_aligned (rotor1 true) /\
  0 <= midline (r (rotor0 true)) /\
  exists s1,
    recalc_center cos_poly sin_poly pi_double (rotor1 true) (rotor0 true)
    = Ok s1 /\
    Qabs (x (center s1) - x (center (rotor0 true)))
    < midline (r (rotor0 true)) + 1.
Proof.
  assert (Hm : 0 <= midline (r (rotor0 true)))
    by (apply Qle_bool_iff; reflexivity).
  split; [reflexivity|]. split; [exact Hm|].
  destruct (recalc_center_reach cos_poly sin_poly pi_double
              (rotor1 true) (rotor0 true)) as (s1 & E & Hx & _).
  - reflexivity.
  - exact Hm.
  - apply Qle_bool_iff. reflexivity.
  - apply Qle_bool_iff. reflexivity.
  - exists s1. split; [exact E | exact Hx].
Defined.









(** ** The ring mask, further *)

Lemma steps_above (n : nat) (v q : Q) : In q (steps n (v + 1)) -> v < q.
Proof.
  intros H. apply in_steps in H as (k & _ & E).
  pose proof (inject_Z_nat_nonneg k). lra.
Qed.

Lemma length_steps (n : nat) (v : Q) : length (steps n v) = n.
Proof. revert v. induction n as [|n IH]; intros v; cbn; [|rewrite IH]; easy. Qed.

Lemma sorted_app {A} (R : A -> A -> Prop) (l1 l2 : list A) :
  StronglySorted R l1 -> StronglySorted R l2 ->
  (forall a b, In a l1 -> In b l2 -> R a b) ->
  StronglySorted R (l1 ++ l2).
Proof.
  intros S1 S2 H. induction S1 as [|a l1 S1 IH F]; [exact S2|].
  cbn. constructor.
  - apply IH. intros a' b Ha Hb. apply H; [now right | exact Hb].
  - apply List.Forall_forall. intros b Hb.
    apply List.in_app_or in Hb as [Hb | Hb].
    + rewrite List.Forall_forall in F. now apply F.
    + apply H; [now left | exact Hb].
Qed.

Lemma sorted_filter {A} (R : A -> A -> Prop) (f : A -> bool) (l : list A) :
  StronglySorted R l -> StronglySorted R (List.filter f l).
Proof.
  induction 1 as [|a l S IH F]; cbn; [constructor|].
  destruct (f a); [|exact IH]. constructor; [exact IH|].
  apply List.Forall_forall. intros b Hb.
  apply List.filter_In in Hb as [Hb _].
  rewrite List.Forall_forall in F. now apply F.
Qed.

Lemma sorted_lookup {A} (R : A -> A -> Prop) (l : list A) :
  StronglySorted R l ->
  forall i j a b, (i < j)%nat -> l !! i = Some a -> l !! j = Some b -> R a b.
Proof.
  induction 1 as [|c l S IH F]; intros i j a b Hij Ha Hb; [easy|].
  destruct j as [|j]; [lia|]. cbn in Hb.
  destruct i as [|i]; cbn in Ha.
  - injection Ha as <-. rewrite List.Forall_forall in F. apply F.
    apply list_elem_of_In. now apply list_elem_of_lookup_2 in Hb.
  - apply (IH i j); [lia | assumption..].
Qed.

Lemma steps_sorted (n : nat) (v : Q) : StronglySorted Qlt (steps n v).
Proof.
  revert v. induction n as [|n IH]; intros v; cbn; constructor; [apply IH|].
  apply List.Forall_forall. intros q. apply steps_above.
Qed.

Lemma row_sorted (self : Circle) (ri ro : Q) (n : nat) (xv yv : Q) :
  StronglySorted row_major_lt (row self ri ro n xv yv).
Proof.
  unfold row. apply sorted_filter.
  pose proof (steps_sorted n xv) as S.
  induction S as [|a l S IH F]; cbn; constructor; [exact IH|].
  apply List.Forall_forall. intros p Hp.
  apply List.in_map_iff in Hp as (q & <- & Hq).
  rewrite List.Forall_forall in F. right. cbn. split; [reflexivity|].
  now apply F.
Qed.

Lemma row_y (self : Circle) (ri ro : Q) (n : nat) (xv yv : Q) (p : Coord) :
  In p (row self ri ro n xv yv) -> y p = yv.
Proof.
  unfold row. intros H. apply List.filter_In in H as [H _].
  now apply List.in_map_iff in H as (q & <- & _).
Qed.

Lemma rows_sorted (self : Circle) (ri ro : Q) (n m : nat) (xv yv : Q) :
  StronglySorted row_major_lt
    (concat (map (row self ri ro n xv) (steps m yv))).
Proof.
  revert yv. induction m as [|m IH]; intros yv; cbn; [constructor|].
  apply sorted_app; [apply row_sorted | apply IH|].
  intros a b Ha Hb. left.
  apply row_y in Ha. apply List.in_concat in Hb as (rw & Hrw & Hb).
  apply List.in_map_iff in Hrw as (yy & <- & Hyy).
  apply row_y in Hb. apply steps_above in Hyy. now rewrite Ha, Hb.
Qed.

Lemma row_major_lt_neq (p q : Coord) : row_major_lt p q -> Coord_eq p q = false.
Proof.
  intros H. apply not_true_is_false. intros E.
  apply Coord_eq_true in E as [Ex Ey]. destruct H as [H | [_ H]]; lra.
Qed.

(** X8.  The mask lists its points row by row, a row from left to right:
    an earlier entry has a smaller [y], or the same [y] and a smaller
    [x]; so no two entries of the mask are equal. *)
Theorem mask_row_major (a : Q) (rad : Radius) (v : Q)
    (i j : nat) (p q : Coord) :
  (i < j)%nat ->
  inner_pixels (Circle_init true a rad v) !! i = Some p ->
  inner_pixels (Circle_init true a rad v) !! j = Some q ->
  row_major_lt p q /\ Coord_eq p q = false.
Proof.
  intros Hij Hp Hq.
  assert (L : row_major_lt p q).
  { refine (sorted_lookup row_major_lt _ _ i j p q Hij Hp Hq).
    change (inner_pixels (Circle_init true a rad v))
      with (calc_pixels (mkCircle true (mkCoord 0 0) a v rad [] [])).
    rewrite calc_pixels_rows. apply rows_sorted. }
  split; [exact L | now apply row_major_lt_neq].
Qed.

Lemma mask_row_major_witness :
  exists p q,
    inner_pixels (Circle_init true 0 (Radius1 1) 0) !! 0%nat = Some p /\
    inner_pixels (Circle_init true 0 (Radius1 1) 0) !! 1%nat = Some q /\
    row_major_lt p q.
Proof.
  destruct (inner_pixels (Circle_init true 0 (Radius1 1) 0) !! 0%nat)
    as [p|] eqn:Hp; [|vm_compute in Hp; discriminate Hp].
  destruct (inner_pixels (Circle_init true 0 (Radius1 1) 0) !! 1%nat)
    as [q|] eqn:Hq; [|vm_compute in Hq; discriminate Hq].
  exists p, q. split; [reflexivity|]. split; [reflexivity|].
  apply (mask_row_major 0 (Radius1 1) 0 0 1 p q); [lia | exact Hp | exact Hq].
Defined.

Lemma no_member_nil {A} (l : list A) : (forall a, ~ In a l) -> l = [].
Proof. destruct l as [|a l]; [easy|]. intros H. destruct (H a). now left. Qed.

Lemma Qsqr_nonneg' (a : Q) : 0 <= a ^ 2.
Proof. assert (E : a ^ 2 == a * a) by ring. rewrite E. nra. Qed.

(** X9.  A drawing rotor whose outer radius is negative, or not larger
    in absolute value than its inner radius (a ring of no or negative
    thickness around a non-negative radius, for one), gets an empty
    mask and empty world pixels. *)
Theorem mask_empty (a : Q) (rad : Radius) (v : Q) :
  outer_radius rad < 0 \/ outer_radius rad ^ 2 <= value rad ^ 2 ->
  inner_pixels (Circle_init true a rad v) = [] /\
  pixels (Circle_init true a rad v) = [].
Proof.
  intros H.
  assert (E : inner_pixels (Circle_init true a rad v) = []).
  { apply no_member_nil. intros p Hp.
    assert (G : grid_ring_point rad p).
    { apply (init_mask_grid a rad v). apply in_mask_iff.
      exists p. split; [exact Hp|]. split; reflexivity. }
    destruct G as (i & j & Hi & _ & Ex & _ & Hx & _ & [B1 B2]).
    destruct H as [H | H]; [|lra].
    assert (0 <= inject_Z i)
      by (change 0 with (inject_Z 0); now rewrite <- Zle_Qle).
    lra. }
  split; [exact E|]. change (pixels (Circle_init true a rad v))
    with (inner_pixels (Circle_init true a rad v)). exact E.
Qed.

Lemma mask_empty_witness :
  (outer_radius ring_negative < 0
   \/ outer_radius ring_negative ^ 2 <= value ring_negative ^ 2) /\
  inner_pixels (Circle_init true 0 ring_negative 0) = [].
Proof.
  assert (H : outer_radius ring_negative < 0
              \/ outer_radius ring_negative ^ 2 <= value ring_negative ^ 2)
    by (left; reflexivity).
  split; [exact H|]. exact (proj1 (mask_empty 0 ring_negative 0 H)).
Defined.

Lemma length_filter_le {A} (f : A -> bool) (l : list A) :
  (length (List.filter f l) <= length l)%nat.
Proof. induction l as [|a l IH]; cbn; [lia|]. destruct (f a); cbn; lia. Qed.

Lemma length_rows (self : Circle) (ri ro : Q) (n m : nat) (xv yv : Q) :
  (length (concat (map (row self ri ro n xv) (steps m yv))) <= m * n)%nat.
Proof.
  revert yv. induction m as [|m IH]; intros yv; cbn; [lia|].
  rewrite length_app. specialize (IH (yv + 1)).
  assert (length (row self ri ro n xv yv) <= n)%nat.
  { unfold row. etransitivity; [apply length_filter_le|].
    now rewrite length_map, length_steps. }
  lia.
Qed.

(** X10.  The mask has at most [(floor (2 * outer) + 1)^2] points, the
    number of grid points the two loops visit. *)
Theorem mask_size (a : Q) (rad : Radius) (v : Q) :
  (Z.of_nat (length (inner_pixels (Circle_init true a rad v)))
   <= Z.max 0 (Qfloor (2 * outer_radius rad) + 1) ^ 2)%Z.
Proof.
  change (inner_pixels (Circle_init true a rad v))
    with (calc_pixels (mkCircle true (mkCoord 0 0) a v rad [] [])).
  rewrite calc_pixels_rows. cbn [r center x y].
  fold (outer_radius rad).
  pose proof (length_rows (mkCircle true (mkCoord 0 0) a v rad [] [])
                (value rad) (outer_radius rad) (rounds (outer_radius rad))
                (rounds (outer_radius rad)) (0 - outer_radius rad)
                (0 - outer_radius rad)) as L.
  unfold rounds in *. nia.
Qed.

(** X11.  The mask is symmetric under exchanging the axes: (a, b) is in
    it exactly when (b, a) is. *)
Theorem mask_transpose (a : Q) (rad : Radius) (v : Q) (px py : Q) :
  in_mask (mkCoord px py) (inner_pixels (Circle_init true a rad v))
  <-> in_mask (mkCoord py px) (inner_pixels (Circle_init true a rad v)).
Proof.
  rewrite !init_mask_grid. unfold grid_ring_point, in_band. cbn [x y].
  split; intros (i & j & Hi & Hj & Ex & Ey & Hx & Hy & B1 & B2);
    exists j, i; repeat (split; try assumption); lra.
Qed.

(** X12.  When twice the outer radius is an integer the mask is
    symmetric under mirroring either axis. *)
Theorem mask_mirror (a : Q) (rad : Radius) (v : Q) (k : Z) (p : Coord) :
  2 * outer_radius rad == inject_Z k ->
  (in_mask p (inner_pixels (Circle_init true a rad v))
   <-> in_mask (mkCoord (- x p) (y p))
         (inner_pixels (Circle_init true a rad v))) /\
  (in_mask p (inner_pixels (Circle_init true a rad v))
   <-> in_mask (mkCoord (x p) (- y p))
         (inner_pixels (Circle_init true a rad v))).
Proof.
  intros Ek. rewrite !init_mask_grid. unfold grid_ring_point, in_band.
  cbn [x y].
  assert (Sq : forall t : Q, (- t) ^ 2 == t ^ 2) by (intros t; ring).
  assert (Flip : forall (t : Q) (i : Z),
             (0 <= i)%Z -> t == - outer_radius rad + inject_Z i ->
             t <= outer_radius rad ->
             (0 <= k - i)%Z /\
             - t == - outer_radius rad + inject_Z (k - i) /\
             - t <= outer_radius rad).
  { intros t i Hi Et Ht.
    assert (0 <= inject_Z i)
      by (change 0 with (inject_Z 0); now rewrite <- Zle_Qle).
    assert (L : inject_Z i <= inject_Z k) by (rewrite <- Ek; lra).
    rewrite <- Zle_Qle in L. split; [lia|].
    unfold Z.sub. rewrite inject_Z_plus, inject_Z_opp, <- Ek.
    split; lra. }
  split; split; intros (i & j & Hi & Hj & Ex & Ey & Hx & Hy & B1 & B2).
  - destruct (Flip _ _ Hi Ex Hx) as (Hi' & Ex' & Hx').
    exists (k - i)%Z, j. rewrite Sq. repeat (split; try assumption).
  - destruct (Flip _ _ Hi Ex Hx) as (Hi' & Ex' & Hx').
    rewrite Sq in B1, B2. rewrite Qopp_involutive in Ex', Hx'.
    exists (k - i)%Z, j. repeat (split; try assumption).
  - destruct (Flip _ _ Hj Ey Hy) as (Hj' & Ey' & Hy').
    exists i, (k - j)%Z. rewrite Sq. repeat (split; try assumption).
  - destruct (Flip _ _ Hj Ey Hy) as (Hj' & Ey' & Hy').
    rewrite Sq in B1, B2. rewrite Qopp_involutive in Ey', Hy'.
    exists i, (k - j)%Z. repeat (split; try assumption).
Qed.

Lemma mask_mirror_witness :
  2 * outer_radius ring_three_halves == inject_Z 3 /\
  (in_mask (mkCoord (1 # 2) (1 # 2))
     (inner_pixels (Circle_init true 0 ring_three_halves 0))
   <-> in_mask (mkCoord (- (1 # 2)) (1 # 2))
         (inner_pixels (Circle_init true 0 ring_three_halves 0))).
Proof.
  assert (H : 2 * outer_radius ring_three_halves == inject_Z 3)
    by reflexivity.
  split; [exact H|].
  exact (proj1 (mask_mirror 0 ring_three_halves 0 3
                  (mkCoord (1 # 2) (1 # 2)) H)).
Defined.

(** ** [DrawableSurface.draw_pixel] *)

Lemma in_zrange (a b z : Z) : In z (zrange a b) <-> (a <= z < b)%Z.
Proof.
  unfold zrange. rewrite List.in_map_iff. split.
  - intros (i & <- & Hi). apply List.in_seq in Hi. lia.
  - intros H. exists (Z.to_nat (z - a)). split; [lia|].
    apply List.in_seq. lia.
Qed.

Lemma plot_lookup w h c row pix col k :
  plot w h c row pix col !! k
  = if decide (k = (col, row) /\ (0 <= col < w)%Z /\ (0 <= row < h)%Z)
    then Some c else pix !! k.
Proof.
  unfold plot.
  destruct ((0 <=? col)%Z && (col <? w)%Z
            && ((0 <=? row)%Z && (row <? h)%Z)) eqn:E.
  - rewrite !andb_true_iff in E.
    rewrite Z.leb_le, !Z.ltb_lt, Z.leb_le in E.
    destruct (decide (k = (col, row))) as [->|Hk].
    + rewrite lookup_insert_eq, decide_True; [reflexivity | intuition lia].
    + rewrite lookup_insert_ne by congruence.
      rewrite decide_False; [reflexivity | intuition].
  - rewrite decide_False; [reflexivity|]. intros (_ & H1 & H2).
    assert (T : (0 <=? col)%Z && (col <? w)%Z
                && ((0 <=? row)%Z && (row <? h)%Z) = true).
    { rewrite !andb_true_iff, Z.leb_le, !Z.ltb_lt, Z.leb_le. lia. }
    congruence.
Qed.

Lemma elem_of_zrange (a b z : Z) : z ∈ zrange a b <-> (a <= z < b)%Z.
Proof. rewrite list_elem_of_In. apply in_zrange. Qed.

Lemma if_decide_or {A} (P Q R : Prop) `{Decision P, Decision Q, Decision R}
    (a b : A) :
  (R <-> P \/ Q) ->
  (if decide P then a else if decide Q then a else b)
  = if decide R then a else b.
Proof. intros E. repeat case_decide; try reflexivity; tauto. Qed.

Lemma if_decide_iff {A} (P Q : Prop) `{Decision P, Decision Q} (a b : A) :
  (P <-> Q) -> (if decide P then a else b) = if decide Q then a else b.
Proof. intros E. repeat case_decide; try reflexivity; tauto. Qed.

Lemma plot_row_lookup w h c row (cols : list Z) pix k :
  fold_left (plot w h c row) cols pix !! k
  = if decide (k.2 = row /\ k.1 ∈ cols
               /\ (0 <= k.1 < w)%Z /\ (0 <= k.2 < h)%Z)
    then Some c else pix !! k.
Proof.
  revert pix. induction cols as [|col cols IH]; intros pix; cbn [fold_left].
  - rewrite decide_False; [reflexivity|].
    intros (_ & H & _). now apply elem_of_nil in H.
  - rewrite IH, plot_lookup. apply if_decide_or.
    destruct k as [kc kr]. cbn [fst snd]. rewrite elem_of_cons. split.
    + intros (-> & [-> | H] & B); [right | left]; repeat split; auto; lia.
    + intros [(-> & H & B) | (E & B)].
      * repeat split; auto; lia.
      * injection E as -> ->. repeat split; auto; lia.
Qed.

Lemma plot_rows_lookup w h c (rows cols : list Z) pix k :
  fold_left (fun pix row => fold_left (plot w h c row) cols pix) rows pix !! k
  = if decide (k.2 ∈ rows /\ k.1 ∈ cols
               /\ (0 <= k.1 < w)%Z /\ (0 <= k.2 < h)%Z)
    then Some c else pix !! k.
Proof.
  revert pix. induction rows as [|row rows IH]; intros pix; cbn [fold_left].
  - rewrite decide_False; [reflexivity|].
    intros (H & _). now apply elem_of_nil in H.
  - rewrite IH, plot_row_lookup. apply if_decide_or.
    rewrite elem_of_cons. split.
    + intros ([-> | H] & B); [right | left]; repeat split; tauto.
    + intros [(H & B) | (-> & B)]; repeat split; tauto.
Qed.

Lemma draw_pixel_lookup (self : DrawableSurface) (pos : Coord) (c : color)
    (b : Z) (k : Z * Z) :
  surface (draw_pixel self pos c b) !! k
  = if decide (brush_covers self pos b k) then Some c
    else surface self !! k.
Proof.
  unfold draw_pixel. cbn [surface]. rewrite plot_rows_lookup.
  apply if_decide_iff. unfold brush_covers. cbn zeta.
  rewrite !elem_of_zrange. lia.
Qed.

Lemma draw_pixel_inside (self : DrawableSurface) (pos : Coord)
    (c : color) (b : Z) :
  on_surface self -> on_surface (draw_pixel self pos c b).
Proof.
  intros H k. rewrite draw_pixel_lookup. cbn [width height draw_pixel].
  case_decide as Hc; [|apply H].
  intros _. unfold brush_covers in Hc. cbn zeta in Hc. tauto.
Qed.

Lemma surface_eq (s1 s2 : DrawableSurface) :
  width s1 = width s2 -> height s1 = height s2 ->
  (forall k, surface s1 !! k = surface s2 !! k) -> s1 = s2.
Proof.
  destruct s1, s2. cbn. intros -> -> H. f_equal. now apply map_eq.
Qed.

(** X13.  [draw_pixel] writes the color into exactly the pixels of the
    square of [brush_size + 1] columns and rows whose corner is
    [int(pos - brush_size // 2)], as far as they lie on the surface,
    and leaves every other pixel and the size of the surface alone; a
    negative brush writes nothing. *)
Theorem draw_pixel_square (self : DrawableSurface) (pos : Coord) (c : color)
    (b : Z) :
  width (draw_pixel self pos c b) = width self /\
  height (draw_pixel self pos c b) = height self /\
  (forall k : Z * Z,
      surface (draw_pixel self pos c b) !! k
      = if decide
             ((py_int (x pos - inject_Z (b / 2)) <= k.1
               <= py_int (x pos - inject_Z (b / 2)) + b)%Z /\
              (py_int (y pos - inject_Z (b / 2)) <= k.2
               <= py_int (y pos - inject_Z (b / 2)) + b)%Z /\
              (0 <= k.1 < width self)%Z /\ (0 <= k.2 < height self)%Z)
        then Some c else surface self !! k) /\
  ((b < 0)%Z -> draw_pixel self pos c b = self).
Proof.
  split; [reflexivity|]. split; [reflexivity|]. split.
  - intros k. apply draw_pixel_lookup.
  - intros Hb. apply surface_eq; try reflexivity. intros k.
    rewrite draw_pixel_lookup, decide_False; [reflexivity|].
    unfold brush_covers. cbn zeta. lia.
Qed.

(** X14.  [draw_pixel] never writes outside the surface: if every
    written pixel lay on the surface before, the same holds after. *)
Theorem draw_pixel_on_surface (self : DrawableSurface) (pos : Coord)
    (c : color) (b : Z) :
  on_surface self -> on_surface (draw_pixel self pos c b).
Proof. apply draw_pixel_inside. Qed.

Lemma draw_pixel_on_surface_witness :
  on_surface (DrawableSurface_init 800 600) /\
  on_surface (draw_pixel (DrawableSurface_init 800 600) (mkCoord (-3) 599)
                (155, 10, 20)%Z 5).
Proof.
  assert (H : on_surface (DrawableSurface_init 800 600)).
  { intros k [c Hc]. cbn in Hc. rewrite lookup_empty in Hc. discriminate. }
  split; [exact H|]. now apply draw_pixel_on_surface.
Defined.

(** X15.  Drawing the same point twice is drawing it once, and two
    draws in the same color give the same surface in either order. *)
Theorem draw_pixel_same_color (self : DrawableSurface) (p1 p2 : Coord)
    (c : color) (b1 b2 : Z) :
  draw_pixel (draw_pixel self p1 c b1) p1 c b1 = draw_pixel self p1 c b1 /\
  draw_pixel (draw_pixel self p1 c b1) p2 c b2
  = draw_pixel (draw_pixel self p2 c b2) p1 c b1.
Proof.
  split; apply surface_eq; try reflexivity; intros k;
    rewrite !draw_pixel_lookup; unfold brush_covers; cbn [width height draw_pixel];
    repeat case_decide; try reflexivity; tauto.
Qed.

(** ** [GraphicWindow.handle_events] *)

Lemma handle_event_running (w : GraphicWindow) (e : event) :
  running (handle_event w e) = running w && negb (stops e) /\
  window_width (handle_event w e) = window_width w /\
  window_height (handle_event w e) = window_height w.
Proof.
  unfold handle_event, stops.
  destruct e as [[] [] []]; cbn; rewrite ?andb_true_r, ?andb_false_r; auto.
Qed.

Lemma handle_events_running_aux (w : GraphicWindow) (events : list event) :
  running (handle_events w events)
  = running w && forallb (fun e => negb (stops e)) events /\
  window_width (handle_events w events) = window_width w /\
  window_height (handle_events w events) = window_height w.
Proof.
  unfold handle_events. revert w.
  induction events as [|e events IH]; intros w; cbn [fold_left forallb].
  - now rewrite andb_true_r.
  - destruct (IH (handle_event w e)) as (R & W & H).
    destruct (handle_event_running w e) as (R1 & W1 & H1).
    rewrite R, W, H, R1, W1, H1. now rewrite andb_assoc.
Qed.

(** X16.  [handle_events] can stop the window and never restarts it:
    the window runs after a batch of events exactly if it ran before
    and the batch has no QUIT, no Escape key and no Ctrl+S; the size of
    the window stays. *)
Theorem handle_events_running (w : GraphicWindow) (events : list event) :
  running (handle_events w events)
  = running w && forallb (fun e => negb (stops e)) events /\
  window_width (handle_events w events) = window_width w /\
  window_height (handle_events w events) = window_height w.
Proof. apply handle_events_running_aux. Qed.

(** ** [CirclesCollection.run] *)

Section RunFacts.
Variables (cos sin : Q -> Q) (pi : Q).

Abbreviation tick'' := (tick cos sin pi).
Abbreviation run_frame' := (run_frame cos sin pi).
Abbreviation run_loop' := (run_loop cos sin pi).

Lemma tick_tickable (cc : CirclesCollection) :
  tickable cc ->
  exists cc',
    tick'' cc = Ok cc' /\ tickable cc' /\
    line_color cc' = line_color cc /\
    brush_line_size cc' = brush_line_size cc /\
    draw_circles cc' = draw_circles cc /\
    scene_width cc' = scene_width cc /\
    scene_height cc' = scene_height cc.
Proof.
  intros [Hal Hne]. destruct (circles cc) as [|c0 l] eqn:E; [easy|].
  apply Forall_cons in Hal as [H0 Hl].
  eexists. split; [exact (tick_cons cos sin pi cc c0 l E Hl)|].
  split; [|now repeat split]. split; [|easy].
  cbn [with_circles circles]. apply Forall_map.
  assert (H : Forall pixels_aligned (c0 :: pass (moved cos sin pi) c0 l)).
  { constructor; [exact H0|].
    apply pass_Forall; [|exact Hl]. intros c p. apply moved_aligned. }
  revert H. apply Forall_impl'. now intros c Hc.
Qed.

Lemma getitem_last_ne {A} (l : list A) :
  l <> [] -> exists a, getitem_last l = Ok a /\ last l = Some a.
Proof.
  intros H. unfold getitem_last.
  destruct (last l) as [a|] eqn:E; [now exists a|].
  now apply last_None in E.
Qed.

(** A round of the loop on a tickable collection returns, and this is
    what it returns. *)
Lemma run_frame_tickable (events : list event) (st : RunState) :
  tickable (collection st) ->
  exists cc' tip,
    tick'' (collection st) = Ok cc' /\ tickable cc' /\
    line_color cc' = line_color (collection st) /\
    draw_circles cc' = draw_circles (collection st) /\
    last (circles cc') = Some tip /\
    run_frame' events st
    = Ok (mkRunState cc' (handle_events (window st) events)
            (draw_pixel (image_points st) (center tip)
               (line_color (collection st))
               (brush_line_size (collection st)))
            (if draw_circles (collection st)
             then draw_rings (circles cc')
                    (fill_transparent (image_circles st))
             else image_circles st)).
Proof.
  intros Ht.
  destruct (tick_tickable _ Ht) as (cc' & E & Ht' & Hl & Hb & Hd & _).
  destruct (getitem_last_ne (circles cc') (proj2 Ht')) as (tip & Eg & El).
  exists cc', tip. split; [exact E|]. split; [exact Ht'|].
  split; [exact Hl|]. split; [exact Hd|]. split; [exact El|].
  unfold run_frame. rewrite E. cbn [bind]. rewrite Eg. cbn [bind].
  now rewrite Hl, Hb, Hd.
Qed.
End RunFacts.

Section RunLoopFacts.
Variables (cos sin : Q -> Q) (pi : Q).

Abbreviation tick3 := (tick cos sin pi).
Abbreviation ticks3 := (ticks cos sin pi).
Abbreviation run_frame3 := (run_frame cos sin pi).
Abbreviation run_loop3 := (run_loop cos sin pi).
Abbreviation run3 := (run cos sin pi).

Lemma bind_assoc {A B C} (m : Result A) (f : A -> Result B)
    (g : B -> Result C) :
  bind (bind m f) g = bind m (fun a => bind (f a) g).
Proof. now destruct m. Qed.

Lemma run_loop_stopped (batches : list (list event)) (st : RunState) :
  is_run (window st) = false -> run_loop3 batches st = Ok st.
Proof. intros H. destruct batches; cbn; [|rewrite H]; reflexivity. Qed.

Lemma run_loop_app (pre post : list (list event)) (st : RunState) :
  run_loop3 (pre ++ post) st
  = let! st1 := run_loop3 pre st in run_loop3 post st1.
Proof.
  revert st. induction pre as [|b pre IH]; intros st; [reflexivity|].
  cbn [app run_loop]. destruct (is_run (window st)) eqn:R.
  - rewrite bind_assoc. destruct (run_frame3 b st) as [st1|e]; cbn [bind];
      [apply IH | reflexivity].
  - cbn [bind]. now rewrite run_loop_stopped.
Qed.

Lemma ticks_snoc (n : nat) (cc : CirclesCollection) :
  ticks3 (S n) cc = let! c1 := ticks3 n cc in tick3 c1.
Proof.
  revert cc. induction n as [|n IH]; intros cc.
  - cbn. now destruct (tick3 cc).
  - change (ticks3 (S (S n)) cc)
      with (let! c1 := tick3 cc in ticks3 (S n) c1).
    change (ticks3 (S n) cc) with (let! c1 := tick3 cc in ticks3 n c1).
    rewrite bind_assoc. destruct (tick3 cc) as [c1|e]; cbn [bind];
      [apply IH | reflexivity].
Qed.

Lemma quiet_running (w : GraphicWindow) (events : list event) :
  quiet events -> running (handle_events w events) = running w.
Proof.
  intros Hq. destruct (handle_events_running_aux w events) as [R _].
  rewrite R, Hq. apply andb_true_r.
Qed.
End RunLoopFacts.

Section RunTheorems.
Variables (cos sin : Q -> Q) (pi : Q).

Abbreviation ticks4 := (ticks cos sin pi).
Abbreviation run_frame4 := (run_frame cos sin pi).
Abbreviation run_loop4 := (run_loop cos sin pi).
Abbreviation run4 := (run cos sin pi).

Lemma run_loop_quiet (pre : list (list event)) (st : RunState) :
  tickable (collection st) -> running (window st) = true ->
  Forall quiet pre ->
  exists st1,
    run_loop4 pre st = Ok st1 /\ running (window st1) = true /\
    tickable (collection st1) /\
    ticks4 (length pre) (collection st) = Ok (collection st1).
Proof.
  revert st. induction pre as [|b pre IH]; intros st Ht R Hq.
  - exists st. split; [reflexivity|]. split; [exact R|].
    split; [exact Ht | reflexivity].
  - apply Forall_cons in Hq as [Hb Hq].
    destruct (run_frame_tickable cos sin pi b st Ht)
      as (cc' & tip & E & Ht' & _ & _ & _ & F).
    cbn [run_loop length ticks]. unfold is_run. rewrite R, F, E. cbn [bind].
    apply IH; cbn [collection window]; [exact Ht'| |exact Hq].
    now rewrite quiet_running.
Qed.

Lemma stops_not_quiet (w : GraphicWindow) (b : list event) :
  existsb stops b = true -> running (handle_events w b) = false.
Proof.
  intros H. destruct (handle_events_running_aux w b) as [R _]. rewrite R.
  assert (E : forallb (fun e => negb (stops e)) b = false).
  { apply not_true_is_false. intros F.
    apply existsb_exists in H as (e & He & Hs).
    rewrite forallb_forall in F. specialize (F e He).
    rewrite Hs in F. discriminate. }
  rewrite E. apply andb_false_r.
Qed.
End RunTheorems.

(** X17.  The loop of [run] composes over the stream of event batches:
    running on [pre ++ post] is running on [pre] and then, from the
    state reached, on [post]. *)
Theorem run_loop_composes (cos sin : Q -> Q) (pi : Q)
    (pre post : list (list event)) (st : RunState) :
  run_loop cos sin pi (pre ++ post) st
  = let! st1 := run_loop cos sin pi pre st in run_loop cos sin pi post st1.
Proof. apply run_loop_app. Qed.

(** X18.  [run] on a collection as [__init__] leaves it: when the first
    stopping event (QUIT, Escape, Ctrl+S) arrives in round [n + 1], the
    run ends with the window stopped after exactly [n + 1] ticks; the
    round in which the event arrives is still simulated, and no later
    batch of events is looked at. *)
Theorem run_until_stop (cos sin : Q -> Q) (pi : Q)
    (chain : CirclesCollection) (pre : list (list event))
    (b : list event) (post : list (list event)) :
  tickable chain -> Forall quiet pre -> existsb stops b = true ->
  exists st,
    run cos sin pi chain (pre ++ b :: post) = Ok st /\
    is_run (window st) = false /\
    ticks cos sin pi (S (length pre)) chain = Ok (collection st) /\
    run cos sin pi chain (pre ++ [b]) = Ok st.
Proof.
  intros Ht Hq Hs. unfold run.
  destruct (run_loop_quiet cos sin pi pre (run_start chain) Ht eq_refl Hq)
    as (st1 & E1 & R1 & Ht1 & T1).
  destruct (run_frame_tickable cos sin pi b st1 Ht1)
    as (cc' & tip & E & Ht' & _ & _ & _ & F).
  eexists. rewrite !run_loop_app, E1. cbn [bind run_loop].
  unfold is_run at 1 3. rewrite R1, F. cbn [bind].
  split; [apply run_loop_stopped; cbn; now apply stops_not_quiet|].
  split; [cbn; now apply stops_not_quiet|].
  split; [|reflexivity].
  rewrite ticks_snoc.
  change (collection (run_start chain)) with chain in T1.
  rewrite T1. cbn [bind collection]. exact E.
Qed.

Lemma run_until_stop_witness :
  tickable sample_chain /\ Forall quiet [[]; []] /\
  existsb stops [quit_event] = true /\
  exists st,
    run cos_poly sin_poly pi_double sample_chain [[]; []; [quit_event]; []]
    = Ok st /\
    is_run (window st) = false.
Proof.
  assert (Ht : tickable sample_chain)
    by (split; [repeat constructor | discriminate]).
  assert (Hq : Forall quiet [[]; []]) by (repeat constructor).
  assert (Hs : existsb stops [quit_event] = true) by reflexivity.
  split; [exact Ht|]. split; [exact Hq|]. split; [exact Hs|].
  destruct (run_until_stop cos_poly sin_poly pi_double sample_chain
              [[]; []] [quit_event] [[]] Ht Hq Hs) as (st & E & R & _).
  exists st. split; [exact E | exact R].
Defined.

Section TraceFacts.
Variables (cos sin : Q -> Q) (pi : Q).

Abbreviation run_loop5 := (run_loop cos sin pi).

(** The trace layer along a run: painted stays painted, in the line
    color, on the surface. *)
Lemma run_loop_trace (batches : list (list event)) (st : RunState) :
  tickable (collection st) ->
  exists st',
    run_loop5 batches st = Ok st' /\
    tickable (collection st') /\
    line_color (collection st') = line_color (collection st) /\
    (forall k, is_Some (surface (image_points st) !! k) ->
               is_Some (surface (image_points st') !! k)) /\
    ((forall k c, surface (image_points st) !! k = Some c ->
                  c = line_color (collection st)) ->
     forall k c, surface (image_points st') !! k = Some c ->
                 c = line_color (collection st)) /\
    (on_surface (image_points st) -> on_surface (image_points st')).
Proof.
  revert st. induction batches as [|b batches IH]; intros st Ht.
  - exists st. split; [reflexivity|]. split; [exact Ht|].
    split; [reflexivity|]. split; [auto|]. split; auto.
  - cbn [run_loop]. destruct (is_run (window st)).
    2: { exists st. split; [reflexivity|]. split; [exact Ht|].
         split; [reflexivity|]. split; [auto|]. split; auto. }
    destruct (run_frame_tickable cos sin pi b st Ht)
      as (cc' & tip & E & Ht' & Hl & _ & _ & F).
    rewrite F. cbn [bind].
    match goal with |- context [run_loop5 batches ?s] => set (st1 := s) end.
    destruct (IH st1 Ht') as (st' & E' & Ht2 & Hl2 & Hp & Hc & Hs).
    exists st'. split; [exact E'|]. split; [exact Ht2|].
    cbn [st1 collection image_points] in Hl2, Hp, Hc, Hs.
    split; [congruence|]. split; [|split].
    + intros k Hk. apply Hp. rewrite draw_pixel_lookup.
      case_decide; [eauto | exact Hk].
    + intros Hc0 k c. rewrite <- Hl. apply Hc.
      intros k' c'. rewrite draw_pixel_lookup.
      case_decide; [intros [= <-]; now rewrite Hl |].
      rewrite Hl. apply Hc0.
    + intros Hs0. apply Hs. now apply draw_pixel_inside.
Qed.
End TraceFacts.

(** X19.  The trace layer is never cleared: on a collection as
    [__init__] leaves it the run returns, every pixel of the trace
    painted by the end of a prefix of the run is still painted at the
    end of the whole run, and every painted pixel of the trace has the
    line color and lies on the surface. *)
Theorem trace_persists (cos sin : Q -> Q) (pi : Q)
    (chain : CirclesCollection) (pre post : list (list event)) :
  tickable chain ->
  exists st1 st',
    run cos sin pi chain pre = Ok st1 /\
    run cos sin pi chain (pre ++ post) = Ok st' /\
    (forall k, is_Some (surface (image_points st1) !! k) ->
               is_Some (surface (image_points st') !! k)) /\
    (forall k c, surface (image_points st') !! k = Some c ->
                 c = line_color chain) /\
    on_surface (image_points st').
Proof.
  intros Ht. unfold run.
  destruct (run_loop_trace cos sin pi pre (run_start chain) Ht)
    as (st1 & E1 & Ht1 & Hl1 & _ & Hc1 & Hs1).
  destruct (run_loop_trace cos sin pi post st1 Ht1)
    as (st' & E' & _ & _ & Hp & Hc & Hs).
  exists st1, st'. split; [exact E1|].
  rewrite run_loop_app, E1. cbn [bind]. split; [exact E'|].
  split; [exact Hp|]. cbn [run_start collection image_points] in *.
  assert (Empty : forall k, surface (fill_transparent
            (DrawableSurface_init (scene_width chain) (scene_height chain)))
            !! k = None) by (intros k; apply lookup_empty).
  assert (C1 : forall k c, surface (image_points st1) !! k = Some c ->
                           c = line_color chain).
  { apply Hc1. intros k c Hk. rewrite Empty in Hk. discriminate. }
  split.
  - intros k c Hk. rewrite <- Hl1. apply (Hc ltac:(now rewrite Hl1) k c Hk).
  - apply Hs, Hs1. intros k [c Hk]. rewrite Empty in Hk. discriminate.
Qed.

Lemma trace_persists_witness :
  tickable sample_chain /\
  exists st1 st',
    run cos_poly sin_poly pi_double sample_chain [[]] = Ok st1 /\
    run cos_poly sin_poly pi_double sample_chain ([[]] ++ [[]; []]) = Ok st'.
Proof.
  assert (Ht : tickable sample_chain)
    by (split; [repeat constructor | discriminate]).
  split; [exact Ht|].
  destruct (trace_persists cos_poly sin_poly pi_double sample_chain
              [[]] [[]; []] Ht) as (st1 & st' & E1 & E' & _).
  exists st1, st'. split; [exact E1 | exact E'].
Defined.

(** ** The ring layer *)

Lemma draw_points_lookup (ps : list Coord) (img : DrawableSurface)
    (k : Z * Z) :
  let img' := fold_left (fun img p => draw_pixel img p white 1) ps img in
  width img' = width img /\ height img' = height img /\
  ((surface img' !! k = Some white /\
    exists p, In p ps /\ brush_covers img p 1 k) \/
   (surface img' !! k = surface img !! k /\
    ~ exists p, In p ps /\ brush_covers img p 1 k)).
Proof.
  revert img. induction ps as [|p ps IH]; intros img; cbn [fold_left].
  - split; [reflexivity|]. split; [reflexivity|]. right.
    split; [reflexivity|]. intros (p & [] & _).
  - destruct (IH (draw_pixel img p white 1)) as (W & H & D).
    split; [exact W|]. split; [exact H|].
    change (brush_covers (draw_pixel img p white 1))
      with (brush_covers img) in D.
    destruct D as [(L & q & Hq & Cq) | (L & N)].
    + left. split; [exact L|]. exists q. split; [now right | exact Cq].
    + rewrite draw_pixel_lookup in L.
      destruct (decide (brush_covers img p 1 k)) as [C | C].
      * left. split; [exact L|]. exists p. split; [now left | exact C].
      * right. split; [exact L|]. intros (q & [<- | Hq] & Cq);
          [now apply C | apply N; now exists q].
Qed.

Lemma draw_rings_lookup (cs : list Circle) (img : DrawableSurface)
    (k : Z * Z) :
  width (draw_rings cs img) = width img /\
  height (draw_rings cs img) = height img /\
  ((surface (draw_rings cs img) !! k = Some white /\ ring_pixel cs img k) \/
   (surface (draw_rings cs img) !! k = surface img !! k /\
    ~ ring_pixel cs img k)).
Proof.
  unfold draw_rings, ring_pixel. revert img.
  induction cs as [|c cs IH]; intros img; cbn [fold_left].
  - split; [reflexivity|]. split; [reflexivity|]. right.
    split; [reflexivity|]. intros (c & p & [] & _).
  - destruct (draw_points_lookup (get_pixels c) img k) as (W1 & H1 & D1).
    cbn zeta in W1, H1, D1. fold white in IH |- *.
    set (img1 := fold_left (fun img p => draw_pixel img p white 1)
                   (get_pixels c) img) in *.
    destruct (IH img1) as (W & H & D).
    split; [congruence|]. split; [congruence|].
    assert (Same : forall q, brush_covers img1 q 1 k
                             <-> brush_covers img q 1 k).
    { intros q. unfold brush_covers. cbn zeta. now rewrite W1, H1. }
    destruct D as [(L & c' & q & Hc & Hq & Cq) | (L & N)].
    + left. split; [exact L|]. exists c', q.
      split; [now right|]. split; [exact Hq | now apply Same].
    + destruct D1 as [(L1 & q & Hq & Cq) | (L1 & N1)].
      * left. split; [congruence|]. exists c, q.
        split; [now left|]. split; [exact Hq | exact Cq].
      * right. split; [congruence|].
        intros (c' & q & [<- | Hc] & Hq & Cq).
        -- apply N1. now exists q.
        -- apply N. exists c', q. split; [exact Hc|].
           split; [exact Hq | now apply Same].
Qed.

Section RingFacts.
Variables (cos sin : Q -> Q) (pi : Q).

Lemma run_frame_rings (b : list event) (st : RunState) :
  tickable (collection st) -> draw_circles (collection st) = true ->
  exists st1,
    run_frame cos sin pi b st = Ok st1 /\ tickable (collection st1) /\
    draw_circles (collection st1) = true /\ rings_shown st1.
Proof.
  intros Ht Hd.
  destruct (run_frame_tickable cos sin pi b st Ht)
    as (cc' & tip & E & Ht' & _ & Hd' & _ & F).
  eexists. split; [exact F|]. cbn [collection]. split; [exact Ht'|].
  split; [congruence|].
  intros k. unfold rings_shown. cbn [collection image_circles]. rewrite Hd.
  destruct (draw_rings_lookup (circles cc')
              (fill_transparent (image_circles st)) k) as (W & H & D).
  assert (Same : forall q,
             brush_covers (draw_rings (circles cc')
                             (fill_transparent (image_circles st))) q 1 k
             <-> brush_covers (fill_transparent (image_circles st)) q 1 k).
  { intros q. unfold brush_covers. cbn zeta. now rewrite W, H. }
  assert (Ring : ring_pixel (circles cc')
                   (draw_rings (circles cc')
                      (fill_transparent (image_circles st))) k
                 <-> ring_pixel (circles cc')
                       (fill_transparent (image_circles st)) k).
  { unfold ring_pixel. split; intros (c & q & Hc & Hq & Cq);
      exists c, q; (split; [exact Hc|]); (split; [exact Hq|]);
      now apply Same. }
  destruct D as [(L & R) | (L & N)].
  - left. split; [exact L | now apply Ring].
  - right. split; [|now rewrite Ring].
    rewrite L. apply lookup_empty.
Qed.

Lemma run_loop_rings (batches : list (list event)) (st : RunState) :
  tickable (collection st) -> draw_circles (collection st) = true ->
  rings_shown st ->
  exists st', run_loop cos sin pi batches st = Ok st' /\ rings_shown st'.
Proof.
  revert st. induction batches as [|b batches IH]; intros st Ht Hd Hr.
  - now exists st.
  - cbn [run_loop]. destruct (is_run (window st)); [|now exists st].
    destruct (run_frame_rings b st Ht Hd) as (st1 & F & Ht1 & Hd1 & Hr1).
    rewrite F. cbn [bind]. now apply IH.
Qed.

Lemma run_loop_no_rings (batches : list (list event)) (st : RunState) :
  tickable (collection st) -> draw_circles (collection st) = false ->
  exists st', run_loop cos sin pi batches st = Ok st' /\
              image_circles st' = image_circles st.
Proof.
  revert st. induction batches as [|b batches IH]; intros st Ht Hd.
  - now exists st.
  - cbn [run_loop]. destruct (is_run (window st)); [|now exists st].
    destruct (run_frame_tickable cos sin pi b st Ht)
      as (cc' & tip & E & Ht' & _ & Hd' & _ & F).
    rewrite F. cbn [bind]. rewrite Hd.
    match goal with |- context [run_loop cos sin pi batches ?s] =>
      destruct (IH s) as (st' & E' & I) end;
      [exact Ht' | cbn; congruence|].
    exists st'. split; [exact E' | exact I].
Qed.
End RingFacts.

(** X20.  The ring layer is redrawn from nothing in every round: with
    ring drawing on, after a run of at least one round a pixel of the
    layer is written, in white, exactly if it is on the surface and
    belongs to the two-by-two brush square of a world pixel some rotor
    has now; with ring drawing off the layer stays empty. *)
Theorem ring_layer_current (cos sin : Q -> Q) (pi : Q)
    (chain : CirclesCollection) (b : list event)
    (batches : list (list event)) :
  tickable chain ->
  exists st',
    run cos sin pi chain (b :: batches) = Ok st' /\
    (draw_circles chain = true ->
     forall k : Z * Z,
       (surface (image_circles st') !! k = Some (255, 255, 255)%Z /\
        exists circle p,
          In circle (circles (collection st')) /\ In p (pixels circle) /\
          brush_covers (image_circles st') p 1 k) \/
       (surface (image_circles st') !! k = None /\
        ~ exists circle p,
            In circle (circles (collection st')) /\ In p (pixels circle) /\
            brush_covers (image_circles st') p 1 k)) /\
    (draw_circles chain = false -> surface (image_circles st') = ∅).
Proof.
  intros Ht. destruct (draw_circles chain) eqn:Hd.
  - destruct (run_frame_rings cos sin pi b (run_start chain) Ht Hd)
      as (st1 & F & Ht1 & Hd1 & Hr1).
    destruct (run_loop_rings cos sin pi batches st1 Ht1 Hd1 Hr1)
      as (st' & E' & Hr').
    exists st'. unfold run. cbn [run_loop run_start window
      GraphicWindow_init is_run running].
    fold (run_start chain). rewrite F. cbn [bind].
    split; [exact E'|]. split; [intros _; exact Hr' | discriminate].
  - destruct (run_loop_no_rings cos sin pi (b :: batches) (run_start chain)
                Ht Hd) as (st' & E' & I).
    exists st'. split; [exact E'|]. split; [discriminate|].
    intros _. now rewrite I.
Qed.

Lemma ring_layer_current_witness :
  tickable sample_chain /\
  exists st', run cos_poly sin_poly pi_double sample_chain [[]; []] = Ok st'.
Proof.
  assert (Ht : tickable sample_chain)
    by (split; [repeat constructor | discriminate]).
  split; [exact Ht|].
  destruct (ring_layer_current cos_poly sin_poly pi_double sample_chain
              [] [[]] Ht) as (st' & E & _).
  exists st'. exact E.
Defined.

(** ** [circles_color] *)

Section ColorFacts.
Variables (cos sin : Q -> Q) (pi : Q).

Lemma tick_recolor (cc : CirclesCollection) (col : Z * Z * Z) :
  tick cos sin pi (with_circles_color cc col)
  = match tick cos sin pi cc with
    | Ok cc' => Ok (with_circles_color cc' col)
    | Raise e => Raise e
    end.
Proof.
  unfold tick. cbn [with_circles_color circles].
  now destruct (for_each _ _ _).
Qed.

Lemma run_frame_recolor (b : list event) (st : RunState) (col : Z * Z * Z) :
  run_frame cos sin pi b (recolor col st)
  = match run_frame cos sin pi b st with
    | Ok st' => Ok (recolor col st')
    | Raise e => Raise e
    end.
Proof.
  unfold run_frame. cbn [recolor collection window image_points
    image_circles]. rewrite tick_recolor.
  destruct (tick cos sin pi (collection st)) as [cc'|e]; cbn [bind];
    [|reflexivity].
  cbn [with_circles_color circles draw_circles line_color brush_line_size].
  now destruct (getitem_last (circles cc')).
Qed.

Lemma run_loop_recolor (batches : list (list event)) (st : RunState)
    (col : Z * Z * Z) :
  run_loop cos sin pi batches (recolor col st)
  = match run_loop cos sin pi batches st with
    | Ok st' => Ok (recolor col st')
    | Raise e => Raise e
    end.
Proof.
  revert st. induction batches as [|b batches IH]; intros st; cbn [run_loop];
    [reflexivity|].
  change (window (recolor col st)) with (window st).
  destruct (is_run (window st)); [|reflexivity].
  rewrite run_frame_recolor.
  destruct (run_frame cos sin pi b st) as [st1|e]; cbn [bind];
    [apply IH | reflexivity].
Qed.
End ColorFacts.

(** X21.  [circles_color] is stored and never read: a run on the
    collection with another [circles_color] raises or returns as before,
    with the same rotors, window, trace layer and ring layer (the rings
    are drawn in white whatever the configured color). *)
Theorem circles_color_unused (cos sin : Q -> Q) (pi : Q)
    (chain : CirclesCollection) (col : Z * Z * Z)
    (batches : list (list event)) :
  run cos sin pi (with_circles_color chain col) batches
  = match run cos sin pi chain batches with
    | Ok st =>
        Ok (mkRunState (with_circles_color (collection st) col)
              (window st) (image_points st) (image_circles st))
    | Raise e => Raise e
    end.
Proof.
  unfold run.
  change (run_start (with_circles_color chain col))
    with (recolor col (run_start chain)).
  apply run_loop_recolor.
Qed.

(** ** The initial text of the editor *)

Section InitCodeFacts.
Variable char : Type.
Variables (space newline : char).

Lemma fold_max_ge (params : list (list char * list char)) (m : nat) :
  (m <= fold_left (fun max_len s_list => Nat.max (length s_list.1) max_len)
          params m)%nat /\
  forall s, In s params ->
    (length s.1
     <= fold_left (fun max_len s_list => Nat.max (length s_list.1) max_len)
          params m)%nat.
Proof.
  revert m. induction params as [|s0 params IH]; intros m; cbn [fold_left].
  - split; [lia | intros s []].
  - destruct (IH (Nat.max (length s0.1) m)) as [H1 H2]. split; [lia|].
    intros s [<- | Hs]; [lia | now apply H2].
Qed.

Lemma fold_max_attained (params : list (list char * list char)) (m : nat) :
  fold_left (fun max_len s_list => Nat.max (length s_list.1) max_len)
    params m = m \/
  exists s, In s params /\
    fold_left (fun max_len s_list => Nat.max (length s_list.1) max_len)
      params m = length s.1.
Proof.
  revert m. induction params as [|s0 params IH]; intros m; cbn [fold_left].
  - now left.
  - destruct (IH (Nat.max (length s0.1) m)) as [E | (s & Hs & E)].
    + rewrite E. destruct (Nat.max_spec (length s0.1) m) as [[_ ->] | [_ ->]];
        [now left | right; exists s0; split; [now left | reflexivity]].
    + right. exists s. split; [now right | exact E].
Qed.

Lemma fold_append {A B} (g : A -> list B) (l : list A) (acc : list B) :
  fold_left (fun acc a => acc ++ g a) l acc = acc ++ concat (map g l).
Proof.
  revert acc. induction l as [|a l IH]; intros acc; cbn.
  - now rewrite app_nil_r.
  - now rewrite IH, app_assoc.
Qed.
End InitCodeFacts.

(** X22.  The parameter lines of the initial editor text have their
    comments aligned: the text is the lines in order, each the parameter,
    then spaces, then the comment and a newline, and in every line the
    comment starts two columns after the end of the longest parameter;
    that longest length is reached by some parameter. *)
Theorem params_code_aligned (char : Type) (space newline : char)
    (params : list (list char * list char)) :
  params_code char space newline params
  = concat (map (fun s =>
                   s.1 ++ repeat space (longest char params + 2 - length s.1)
                   ++ s.2 ++ [newline]) params) /\
  (forall s, In s params ->
     length (s.1 ++ repeat space (longest char params + 2 - length s.1))
     = (longest char params + 2)%nat) /\
  (params <> [] ->
   exists s, In s params /\ length s.1 = longest char params).
Proof.
  pose proof (fold_max_ge char params 0) as [_ Hge].
  fold (longest char params) in Hge.
  split; [|split].
  - unfold params_code. rewrite fold_append. cbn [app]. f_equal.
    apply map_ext_in. intros s Hs. specialize (Hge s Hs).
    unfold spaces. rewrite <- !app_assoc. do 2 f_equal. f_equal. lia.
  - intros s Hs. specialize (Hge s Hs).
    rewrite length_app, repeat_length. lia.
  - intros Hne. destruct (fold_max_attained char params 0)
      as [E | (s & Hs & E)].
    + destruct params as [|s params]; [easy|].
      exists s. split; [now left|].
      fold (longest char (s :: params)) in E.
      specialize (Hge s (or_introl eq_refl)). lia.
    + exists s. split; [exact Hs | now symmetry].
Qed.
